(** * Puffer Blast: the grid-geometry and matching engine of [src/App.tsx]

    A shallow embedding of the simulation core of the bubble shooter
    (coordinate mapper, collision resolver, match engine, connectivity
    engine, scoring and termination) together with the properties the
    specification states about it.

    Modelling conventions.

    - Numbers.  The engine computes in IEEE-754 double precision.  Two
      embeddings are used, each where it is adequate.
      Module [Binary64] embeds the coordinate mapper, [getDistance] and the
      neighbour search of the collision resolver on doubles, operation by
      operation; what the specification says about exact round trips and
      about the nearest cell is settled there, rounding included.
      Everywhere else a pixel coordinate or a velocity is a rational [Q]
      and the arithmetic of the source is carried out exactly, grid
      addresses, the score and timestamps being integers ([Z]); this
      embedding serves the properties of matching, connectivity, scoring,
      termination and of the state as a whole, which do not turn on the
      last bit of a coordinate.
    - [Math.sqrt] only ever feeds a comparison.  In the exact embedding
      [getDistance] is embedded through its square ([getDistanceSq]); a
      comparison [getDistance(..) < c] becomes [getDistanceSq .. < c * c]
      and a comparison of two distances compares the squares.  Lemmas
      [getDistance_lt_sound] and [getDistance_order_sound] justify this
      over the reals.
    - [Set<string>] is [gset string]; arrays are lists.
    - [Math.random], [Date.now] and the trigonometry of the click handler
      are inputs of the transition they occur in.  [Click_bounded] asks of
      the direction of a click only what [Math.cos] and [Math.sin] deliver
      for every angle, values between -1 and 1, and the invariants of the
      game are stated over [attainable], the states such clicks lead to.
      [Click_ok] describes the clicks whose direction is an exact rational
      unit vector; they serve to exhibit concrete games ([reachable]).
    - React state and refs are one record [State]; [setState] takes effect
      at the end of the handler that calls it.  Rendering is left out;
      the cosmetic queues (hearts, floating images) are modelled on their
      own, apart from [State]. *)

From Stdlib Require Import ZArith QArith Qround Qreals Qfield Reals Lra Lia List String.
From Stdlib Require Floats Lqa.
From stdpp Require Import gmap strings list pretty.
Import ListNotations.

Local Open Scope Z_scope.
#[local] Set Warnings "-clear-no-such-hyp,-inexact-float".

(** ** Constants and types (lines 10-33) *)

Definition GRID_ROWS : Z := 12.
Definition GRID_COLS : Z := 8.
Definition BUBBLE_RADIUS : Q := 20.
Definition CANVAS_WIDTH : Q := (inject_Z GRID_COLS * BUBBLE_RADIUS * 2)%Q.
Definition CANVAS_HEIGHT : Q := 500.
Definition COLORS : list string :=
  ["#FF5555"; "#55FF55"; "#5555FF"; "#FFFF55"; "#FF55FF"; "#55FFFF"]%string.

(** The literal [1.732] that lines 129 and 143 use for the row pitch. *)
Definition ROW_FACTOR : Q := 1.732.

Module Bubble.
Record t : Type := mk { x : Q; y : Q; color : string; id : string }.
End Bubble.

Module Projectile.
Record t : Type := mk { x : Q; y : Q; vx : Q; vy : Q; color : string }.
End Projectile.

Inductive GameState : Type := start | playing | gameover.

Definition GameState_eqb (a b : GameState) : bool :=
  match a, b with
  | start, start | playing, playing | gameover, gameover => true
  | _, _ => false
  end.

(** ** Numeric helpers *)

(** [Math.round]: nearest integer, halves towards plus infinity. *)
Definition Math_round (q : Q) : Z := Qfloor (q + (1 # 2)).

(** [Math.floor]. *)
Definition Math_floor (q : Q) : Z := Qfloor q.

Definition Qltb (a b : Q) : bool := negb (Qle_bool b a).
Definition Qgtb (a b : Q) : bool := Qltb b a.

(** Square of [getDistance] (lines 37-39). *)
Definition getDistanceSq (x1 y1 x2 y2 : Q) : Q :=
  ((x2 - x1) * (x2 - x1) + (y2 - y1) * (y2 - y1))%Q.

(** [getDistance(x1, y1, x2, y2) < c] for a non-negative constant [c]. *)
Definition getDistance_ltb (x1 y1 x2 y2 c : Q) : bool :=
  Qltb (getDistanceSq x1 y1 x2 y2) (c * c).

(** ** Grid helpers (lines 129-144)

    The mapper in exact arithmetic, with rows and columns as integers.
    It agrees with the engine away from the edges of the bands that
    [Math.round] cuts; [Binary64.getRow] and [Binary64.getCol] are the same
    lines on doubles. *)

(** [row % 2 !== 0]; JavaScript's [%] truncates like [Z.rem]. *)
Definition isOffset (row : Z) : bool := negb (Z.rem row 2 =? 0).

Definition getRow (y : Q) : Z :=
  Math_round ((y - BUBBLE_RADIUS) / (BUBBLE_RADIUS * ROW_FACTOR))%Q.

Definition getCol (x : Q) (row : Z) : Z :=
  let offsetX : Q := if isOffset row then BUBBLE_RADIUS else 0%Q in
  Math_round ((x - BUBBLE_RADIUS - offsetX) / (BUBBLE_RADIUS * 2))%Q.

Definition getX (row col : Z) : Q :=
  (inject_Z col * BUBBLE_RADIUS * 2 + BUBBLE_RADIUS
   + (if isOffset row then BUBBLE_RADIUS else 0))%Q.

Definition getY (row : Z) : Q :=
  (inject_Z row * BUBBLE_RADIUS * ROW_FACTOR + BUBBLE_RADIUS)%Q.

(** The mapper as section 4.1 of the specification words it, for a row
    pitch of [radius * k]; the specification takes [k] to be the square root
    of three. *)
Module SpecMapper.
Definition rowOf (k y : Q) : Z :=
  Math_round ((y - BUBBLE_RADIUS) / (BUBBLE_RADIUS * k))%Q.
Definition yOf (k : Q) (row : Z) : Q :=
  (inject_Z row * BUBBLE_RADIUS * k + BUBBLE_RADIUS)%Q.
End SpecMapper.

(** The coordinate mapper (lines 129-144), [getDistance] (lines 37-39) and
    the neighbour search of the collision resolver (lines 383-414) on
    IEEE-754 binary64 numbers, as the engine evaluates them: operation by
    operation, each rounded to nearest, in the order the source associates
    them.  Rows and columns are doubles here, as they are in the engine.

    - [Math_round] is the nearest integer with halves towards plus
      infinity.  Below 2^52 in magnitude, adding and subtracting 2^52 (with
      the sign of the argument) rounds to an integer, ties to even, and a
      remainder of exactly one half is then moved up; from 2^52 on every
      double is an integer.  The sign of a zero result is not tracked: no
      operation of the engine tells the two zeros apart.
    - [isOffset] is [row % 2 !== 0], read off the binary expansion: the
      remainder is zero exactly for the even integers.
    - [(a) ** 2] is the product [a * a]. *)
Module Binary64.
Import PrimFloat FloatOps SpecFloat.
Local Open Scope float_scope.

Module Bubble.
Record t : Type := mk { x : float; y : float; color : string; id : string }.
End Bubble.

Definition BUBBLE_RADIUS : float := 20.

Definition two52 : float := 4503599627370496.

Definition Math_round (x : float) : float :=
  if abs x <? two52 then
    let r := if x <? 0 then (x - two52) + two52 else (x + two52) - two52 in
    if x - r =? 0.5 then r + 1 else r
  else x.

Definition isOffset (row : float) : bool :=
  match Prim2SF row with
  | S754_zero _ => false
  | S754_finite _ m e =>
      negb (if (1 <=? e)%Z then true
            else (Z.modulo (Zpos m) (2 ^ (1 - e)) =? 0)%Z)
  | _ => true
  end.

Definition getRow (y : float) : float :=
  Math_round ((y - BUBBLE_RADIUS) / (BUBBLE_RADIUS * 1.732)).

Definition getCol (x : float) (row : float) : float :=
  let offsetX := if isOffset row then BUBBLE_RADIUS else 0 in
  Math_round ((x - BUBBLE_RADIUS - offsetX) / (BUBBLE_RADIUS * 2)).

Definition getX (row col : float) : float :=
  col * BUBBLE_RADIUS * 2 + BUBBLE_RADIUS
  + (if isOffset row then BUBBLE_RADIUS else 0).

Definition getY (row : float) : float :=
  row * BUBBLE_RADIUS * 1.732 + BUBBLE_RADIUS.

Definition getDistance (x1 y1 x2 y2 : float) : float :=
  sqrt ((x2 - x1) * (x2 - x1) + (y2 - y1) * (y2 - y1)).

(** Lines 383-388. *)
Definition isOccupied (bubbles : list Bubble.t) (r c : float) : bool :=
  existsb
    (fun b =>
       let br := getRow (Bubble.y b) in
       let bc := getCol (Bubble.x b) br in
       (br =? r) && (bc =? c))
    bubbles.

(** The triple [(bestDist, bestRow, bestCol)] of lines 393-395. *)
Definition Best : Type := (float * float * float)%type.

(** Body of the inner loop (lines 399-409) for one [(dr, dc)]. *)
Definition tryNeighbor (bubbles : list Bubble.t) (prevX prevY : float)
    (row col : float) (best : Best) (dr dc : float) : Best :=
  let nr := row + dr in
  let nc := col + dc in
  if nr <? 0 then best
  else if negb (isOccupied bubbles nr nc) then
    let dist := getDistance prevX prevY (getX nr nc) (getY nr) in
    if dist <? fst (fst best) then (dist, nr, nc) else best
  else best.

Definition searchNeighbors (bubbles : list Bubble.t) (prevX prevY : float)
    (row col : float) : Best :=
  fold_left
    (fun best dr =>
       fold_left
         (fun best' dc => tryNeighbor bubbles prevX prevY row col best' dr dc)
         [-1; 0; 1] best)
    [-1; 0; 1] (infinity, row, col).

(** Lines 378-414: the cell the new bubble goes to. *)
Definition targetCell (bubbles : list Bubble.t) (prevX prevY : float)
    : float * float :=
  let row := getRow prevY in
  let col := getCol prevX row in
  if isOccupied bubbles row col then
    let best := searchNeighbors bubbles prevX prevY row col in
    (snd (fst best), snd best)
  else (row, col).

(** The nine cells of the neighbourhood in the order the loops visit
    them. *)
Definition neighborhood (row col : float) : list (float * float) :=
  flat_map (fun dr => map (fun dc => (row + dr, col + dc)) [-1; 0; 1])
           [-1; 0; 1].

(** A cell the search may choose: row not negative and nobody there. *)
Definition candidate (bubbles : list Bubble.t) (cell : float * float)
    : bool :=
  negb (fst cell <? 0) && negb (isOccupied bubbles (fst cell) (snd cell)).

(** The distance the search computes for a cell. *)
Definition centerDist (px py : float) (cell : float * float) : float :=
  getDistance px py (getX (fst cell) (snd cell)) (getY (fst cell)).

(** One step of the search on a cell of the neighbourhood. *)
Definition pickCell (bubbles : list Bubble.t) (prevX prevY : float)
    (best : Best) (cell : float * float) : Best :=
  if candidate bubbles cell && (centerDist prevX prevY cell <? fst (fst best))
  then (centerDist prevX prevY cell, fst cell, snd cell)
  else best.




(** The number [n]. *)
Definition ofNat (n : nat) : float := Nat.iter n (fun x => x + 1) 0.

(** [P] at the [n] numbers [x], [x + 1], ... *)
Fixpoint allFrom (P : float -> bool) (n : nat) (x : float) : bool :=
  match n with
  | O => true
  | S k => P x && allFrom P k (x + 1)
  end.

Definition rowTrips (row : float) : bool := getRow (getY row) =? row.

(** The column round trip on a row that is offset or not. *)
Definition colTrips (offset : bool) (col : float) : bool :=
  Math_round
    ((col * BUBBLE_RADIUS * 2 + BUBBLE_RADIUS
      + (if offset then BUBBLE_RADIUS else 0)
      - BUBBLE_RADIUS - (if offset then BUBBLE_RADIUS else 0))
     / (BUBBLE_RADIUS * 2))
  =? col.


End Binary64.

(** ** Simulation state (lines 91-102) *)

Record State : Type := mkState {
  score : Z;
  gameState : GameState;
  bubblesRef : list Bubble.t;
  nextColor : string;
  projectileRef : option Projectile.t
}.

(** [COLORS[Math.floor(Math.random() * COLORS.length)]] for a draw [r].
    The product is exact here.  The engine rounds it, which moves a draw
    a hair below k / 6 to the index k; what is proved of colours below
    holds for either index. *)
Definition pickColor (r : Q) : string :=
  nth (Z.to_nat (Math_floor (r * inject_Z (Z.of_nat (length COLORS)))%Q))
      COLORS "undefined"%string.

(** The state React mounts the component with; [r] is the draw of line 94. *)
Definition initialState (r : Q) : State :=
  {| score := 0; gameState := start; bubblesRef := [];
     nextColor := pickColor r; projectileRef := None |}.

(** ** initGame (lines 147-168)

    [random k] is the result of the [k]-th call of [Math.random] made by
    this run of [initGame]; [show] renders a number inside a template
    string. *)

Definition colsInRow (row : Z) : Z :=
  if Z.rem row 2 =? 0 then GRID_COLS else GRID_COLS - 1.

Definition initialBubble (random : nat -> Q) (show : Q -> string)
    (k : nat) (row col : Z) : Bubble.t :=
  {| Bubble.x := getX row col;
     Bubble.y := getY row;
     Bubble.color := pickColor (random k);
     Bubble.id := (pretty row ++ "-" ++ pretty col ++ "-"
                   ++ show (random (S k)))%string |}.

Definition initialBubbles (random : nat -> Q) (show : Q -> string)
    : list Bubble.t :=
  fst (fold_left
         (fun acc row =>
            fold_left
              (fun '(bs, k) col =>
                 (bs ++ [initialBubble random show k row col], S (S k)))
              (seqZ 0 (colsInRow row)) acc)
         (seqZ 0 6) ([], O)).

Definition initGame (random : nat -> Q) (show : Q -> string) (s : State)
    : State :=
  {| score := 0; gameState := playing;
     bubblesRef := initialBubbles random show;
     nextColor := nextColor s; projectileRef := None |}.

(** The population the offset-row rule asks for: rows 0..5, columns
    0..7 on even rows and 0..6 on odd rows, in row-major order. *)
Definition offsetRowCells : list (Z * Z) :=
  flat_map (fun row => map (fun col => (row, col))
                         (seqZ 0 (if Z.even row then 8 else 7)))
           (seqZ 0 6).

Definition rowCount (bs : list Bubble.t) (row : Z) : nat :=
  length (List.filter (fun b => getRow (Bubble.y b) =? row) bs).

(** ** handleCanvasClick (lines 170-195)

    [cosAngle] and [sinAngle] are the values [Math.cos(angle)] and
    [Math.sin(angle)] for [angle = Math.atan2(targetY - startY,
    targetX - startX)]; [nextDraw] is the draw of line 194. *)

Record Click : Type := mkClick {
  targetX : Q; targetY : Q; cosAngle : Q; sinAngle : Q; nextDraw : Q
}.

Definition startX : Q := (CANVAS_WIDTH / 2)%Q.
Definition startY : Q := (CANVAS_HEIGHT - 40)%Q.
Definition speed : Q := 8.

Definition handleCanvasClick (s : State) (c : Click) : State :=
  if negb (GameState_eqb (gameState s) playing)
     || (match projectileRef s with Some _ => true | None => false end)
  then s
  else
    {| score := score s; gameState := gameState s;
       bubblesRef := bubblesRef s;
       nextColor := pickColor (nextDraw c);
       projectileRef :=
         Some {| Projectile.x := startX; Projectile.y := startY;
                 Projectile.vx := (cosAngle c * speed)%Q;
                 Projectile.vy := (sinAngle c * speed)%Q;
                 Projectile.color := nextColor s |} |}.

(** ** Flood fill (lines 197-224)

    [findMatches] and the [traverse] closure of [findFloatingBubbles] are
    the same recursion over a shared, growing set of ids; they differ in
    the neighbour test [adj b bubble].  [fuel] bounds the depth of the
    recursion; [None] means the bound was hit. *)

Definition unvisited (visited : gset string) (b : Bubble.t) : bool :=
  negb (bool_decide (Bubble.id b ∈ visited)).

(** [l.forEach(n => visit(n))] for a visit that updates the shared set and
    may run out of fuel. *)
Definition forEach (visit : gset string -> Bubble.t -> option (gset string))
    (l : list Bubble.t) (acc : option (gset string))
    : option (gset string) :=
  fold_left
    (fun acc n => match acc with Some v => visit v n | None => None end)
    l acc.

Fixpoint floodFill (adj : Bubble.t -> Bubble.t -> bool) (fuel : nat)
    (currentBubbles : list Bubble.t) (visited : gset string)
    (bubble : Bubble.t) : option (gset string) :=
  match fuel with
  | O => None
  | S fuel' =>
      let visited1 := {[Bubble.id bubble]} ∪ visited in
      let neighbors :=
        List.filter (fun b => unvisited visited1 b && adj b bubble)
                    currentBubbles in
      forEach (floodFill adj fuel' currentBubbles) neighbors (Some visited1)
  end.

(** Number of field bubbles whose id is not in the set yet. *)
Definition unvisitedCount (currentBubbles : list Bubble.t)
    (visited : gset string) : nat :=
  length (List.filter (unvisited visited) currentBubbles).

(** Lines 201-202: same colour and closer than [BUBBLE_RADIUS * 2.5]. *)
Definition sameColorNear (b bubble : Bubble.t) : bool :=
  String.eqb (Bubble.color b) (Bubble.color bubble)
  && getDistance_ltb (Bubble.x b) (Bubble.y b) (Bubble.x bubble)
       (Bubble.y bubble) (BUBBLE_RADIUS * 2.5).

(** Line 217: closer than [BUBBLE_RADIUS * 2.5], any colour. *)
Definition near (b bubble : Bubble.t) : bool :=
  getDistance_ltb (Bubble.x b) (Bubble.y b) (Bubble.x bubble)
    (Bubble.y bubble) (BUBBLE_RADIUS * 2.5).

Definition findMatches_fuel (fuel : nat) (bubble : Bubble.t)
    (currentBubbles : list Bubble.t) (matches : gset string)
    : option (gset string) :=
  floodFill sameColorNear fuel currentBubbles matches bubble.

(** [findMatches(bubble, currentBubbles)] with the default empty set. *)
Definition findMatches (bubble : Bubble.t) (currentBubbles : list Bubble.t)
    : gset string :=
  default ∅ (findMatches_fuel (S (length currentBubbles)) bubble
               currentBubbles ∅).

Definition isTopRow (b : Bubble.t) : bool :=
  Qle_bool (Bubble.y b) (BUBBLE_RADIUS * 2).

Definition traverse (fuel : nat) (currentBubbles : list Bubble.t)
    (connectedToTop : gset string) (bubble : Bubble.t)
    : option (gset string) :=
  floodFill near fuel currentBubbles connectedToTop bubble.

(** The set [connectedToTop] after [topRow.forEach(traverse)]. *)
Definition connectedToTop_fuel (fuel : nat) (currentBubbles : list Bubble.t)
    : option (gset string) :=
  forEach (traverse fuel currentBubbles)
          (List.filter isTopRow currentBubbles) (Some ∅).

Definition findFloatingBubbles_fuel (fuel : nat)
    (currentBubbles : list Bubble.t) : option (list Bubble.t) :=
  match connectedToTop_fuel fuel currentBubbles with
  | Some connectedToTop =>
      Some (List.filter (unvisited connectedToTop) currentBubbles)
  | None => None
  end.

Definition findFloatingBubbles (currentBubbles : list Bubble.t)
    : list Bubble.t :=
  default [] (findFloatingBubbles_fuel (S (length currentBubbles))
                currentBubbles).

(** The same-colour adjacency graph [findMatches] walks: [n] is joined to
    [b] when [n] is in the field and passes the neighbour test at [b]. *)
Inductive connected (adj : Bubble.t -> Bubble.t -> bool)
    (currentBubbles : list Bubble.t) (seed : Bubble.t) : Bubble.t -> Prop :=
| connected_seed : connected adj currentBubbles seed seed
| connected_step b n :
    connected adj currentBubbles seed b ->
    In n currentBubbles -> adj n b = true ->
    connected adj currentBubbles seed n.

(** Ids identify bubbles (the data model's "unique-string"). *)
Definition uniqueIds (bs : list Bubble.t) : Prop :=
  forall c1 c2, In c1 bs -> In c2 bs -> Bubble.id c1 = Bubble.id c2 -> c1 = c2.

(** ** Collision resolver (lines 372-421) *)

Definition isOccupied (bubbles : list Bubble.t) (r c : Z) : bool :=
  existsb
    (fun b =>
       let br := getRow (Bubble.y b) in
       let bc := getCol (Bubble.x b) br in
       (br =? r) && (bc =? c))
    bubbles.

(** [dist < bestDist], where [None] stands for [Infinity]. *)
Definition closerThan (dist : Q) (bestDist : option Q) : bool :=
  match bestDist with
  | None => true
  | Some d => Qltb dist d
  end.

(** The triple [(bestDist, bestRow, bestCol)] of lines 393-395; distances
    are kept squared. *)
Definition Best : Type := (option Q * Z * Z)%type.

(** Body of the inner loop (lines 399-409) for one [(dr, dc)].  The
    distances compared are exact; [Binary64.tryNeighbor] compares the
    doubles the engine computes, which can tie where these do not. *)
Definition tryNeighbor (bubbles : list Bubble.t) (prevX prevY : Q)
    (row col : Z) (best : Best) (dr dc : Z) : Best :=
  let nr := row + dr in
  let nc := col + dc in
  if nr <? 0 then best
  else if negb (isOccupied bubbles nr nc) then
    let dist := getDistanceSq prevX prevY (getX nr nc) (getY nr) in
    if closerThan dist (fst (fst best)) then (Some dist, nr, nc) else best
  else best.

Definition searchNeighbors (bubbles : list Bubble.t) (prevX prevY : Q)
    (row col : Z) : Best :=
  fold_left
    (fun best dr =>
       fold_left
         (fun best' dc => tryNeighbor bubbles prevX prevY row col best' dr dc)
         [-1; 0; 1] best)
    [-1; 0; 1] (None, row, col).

(** Lines 378-414: the cell the new bubble goes to. *)
Definition targetCell (bubbles : list Bubble.t) (prevX prevY : Q) : Z * Z :=
  let row := getRow prevY in
  let col := getCol prevX row in
  if isOccupied bubbles row col then
    let best := searchNeighbors bubbles prevX prevY row col in
    (snd (fst best), snd best)
  else (row, col).

(** The nine cells of the neighbourhood in the order the loops visit
    them. *)
Definition neighborhood (row col : Z) : list (Z * Z) :=
  flat_map (fun dr => map (fun dc => (row + dr, col + dc)) [-1; 0; 1])
           [-1; 0; 1].

(** A cell the search may choose: row not negative and nobody there. *)
Definition candidate (bubbles : list Bubble.t) (cell : Z * Z) : bool :=
  negb (fst cell <? 0) && negb (isOccupied bubbles (fst cell) (snd cell)).

(** Squared distance from a point to the pixel centre of a cell. *)
Definition centerDistSq (px py : Q) (cell : Z * Z) : Q :=
  getDistanceSq px py (getX (fst cell) (snd cell)) (getY (fst cell)).

(** One step of the search on a cell of the neighbourhood: the cell
    replaces the best one so far when it is a candidate and strictly
    closer. *)
Definition pickCell (bubbles : list Bubble.t) (prevX prevY : Q)
    (best : Best) (cell : Z * Z) : Best :=
  if candidate bubbles cell
     && closerThan (centerDistSq prevX prevY cell) (fst (fst best))
  then (Some (centerDistSq prevX prevY cell), fst cell, snd cell)
  else best.

(** Scan order of the two loops: by row, then by column. *)
Definition scanBefore (c c' : Z * Z) : Prop :=
  fst c < fst c' \/ (fst c = fst c' /\ snd c < snd c').

(** [best] is what the search holds after the cells [l]: the initial
    triple when no cell of [l] is a candidate, otherwise the first
    candidate of [l] at minimal distance. *)
Definition firstNearest (bubbles : list Bubble.t) (prevX prevY : Q)
    (row col : Z) (l : list (Z * Z)) (best : Best) : Prop :=
  ((forall c, In c l -> candidate bubbles c = false) /\
   best = (None, row, col))
  \/
  (exists a c b,
      l = a ++ c :: b /\ candidate bubbles c = true /\
      best = (Some (centerDistSq prevX prevY c), fst c, snd c) /\
      (forall c', In c' a -> candidate bubbles c' = true ->
                  (centerDistSq prevX prevY c < centerDistSq prevX prevY c')%Q) /\
      (forall c', In c' b -> candidate bubbles c' = true ->
                  (centerDistSq prevX prevY c <= centerDistSq prevX prevY c')%Q)).

(** ** One animation frame (lines 284-473) *)

(** Lines 348-354: integrate, then reflect at the side walls. *)
Definition moveProjectile (p : Projectile.t) : Projectile.t :=
  let x1 := (Projectile.x p + Projectile.vx p)%Q in
  let y1 := (Projectile.y p + Projectile.vy p)%Q in
  let vx1 :=
    if Qltb x1 BUBBLE_RADIUS || Qgtb x1 (CANVAS_WIDTH - BUBBLE_RADIUS)
    then (Projectile.vx p * -1)%Q else Projectile.vx p in
  {| Projectile.x := x1; Projectile.y := y1; Projectile.vx := vx1;
     Projectile.vy := Projectile.vy p;
     Projectile.color := Projectile.color p |}.

(** Lines 357-370, on the moved projectile. *)
Definition collided (bubbles : list Bubble.t) (p : Projectile.t) : bool :=
  Qltb (Projectile.y p) BUBBLE_RADIUS
  || existsb
       (fun b =>
          getDistance_ltb (Projectile.x p) (Projectile.y p) (Bubble.x b)
            (Bubble.y b) (BUBBLE_RADIUS * 1.8))
       bubbles.

(** Lines 375-421, on the moved projectile; [now] is [Date.now()]. *)
Definition newBubbleFor (bubbles : list Bubble.t) (p : Projectile.t)
    (now : Z) : Bubble.t :=
  let prevX := (Projectile.x p - Projectile.vx p)%Q in
  let prevY := (Projectile.y p - Projectile.vy p)%Q in
  let cell := targetCell bubbles prevX prevY in
  {| Bubble.x := getX (fst cell) (snd cell);
     Bubble.y := getY (fst cell);
     Bubble.color := Projectile.color p;
     Bubble.id := ("new-" ++ pretty now)%string |}.

Definition removeIds (ids : gset string) (bs : list Bubble.t)
    : list Bubble.t :=
  List.filter (unvisited ids) bs.

(** Lines 423-450: the field and the score after [newBubble] is added. *)
Definition settle (bubbles : list Bubble.t) (score0 : Z)
    (newBubble : Bubble.t) : list Bubble.t * Z :=
  let updatedBubbles := bubbles ++ [newBubble] in
  let matches := findMatches newBubble updatedBubbles in
  if 3 <=? Z.of_nat (size matches) then
    let afterMatch := removeIds matches updatedBubbles in
    let floating := findFloatingBubbles afterMatch in
    let floatingIds : gset string :=
      list_to_set (map Bubble.id floating) in
    let finalBubbles := removeIds floatingIds afterMatch in
    (finalBubbles,
     score0 + Z.of_nat (size matches) * 10
     + Z.of_nat (length floating) * 20)
  else (updatedBubbles, score0).

(** Line 455. *)
Definition reachedDangerLine (bubbles : list Bubble.t) : bool :=
  existsb (fun b => Qgtb (Bubble.y b) (CANVAS_HEIGHT - 100)) bubbles.

Definition update (s : State) (now : Z) : State :=
  if negb (GameState_eqb (gameState s) playing) then s
  else
    match projectileRef s with
    | None => s
    | Some p0 =>
        let p := moveProjectile p0 in
        if collided (bubblesRef s) p then
          let newBubble := newBubbleFor (bubblesRef s) p now in
          let '(bubbles', score') :=
            settle (bubblesRef s) (score s) newBubble in
          {| score := score';
             gameState :=
               if reachedDangerLine bubbles' then gameover else playing;
             bubblesRef := bubbles';
             nextColor := nextColor s;
             projectileRef := None |}
        else if Qltb (Projectile.y p) (- BUBBLE_RADIUS)
                || Qgtb (Projectile.y p) (CANVAS_HEIGHT + BUBBLE_RADIUS)
        then
          {| score := score s; gameState := gameState s;
             bubblesRef := bubblesRef s; nextColor := nextColor s;
             projectileRef := None |}
        else
          {| score := score s; gameState := gameState s;
             bubblesRef := bubblesRef s; nextColor := nextColor s;
             projectileRef := Some p |}
    end.

(** ** The simulation as a transition system *)

Inductive Event : Type :=
| Reset (random : nat -> Q) (show : Q -> string)
| Fire (c : Click)
| Tick (now : Z).

Definition step (s : State) (e : Event) : State :=
  match e with
  | Reset random show => initGame random show s
  | Fire c => handleCanvasClick s c
  | Tick now => update s now
  end.

Definition run (evs : list Event) (s : State) : State :=
  fold_left step evs s.

Definition isReset (e : Event) : bool :=
  match e with Reset _ _ => true | _ => false end.

(** A draw of [Math.random] lies in [0, 1). *)
Definition isDraw (r : Q) : Prop := (0 <= r)%Q /\ (r < 1)%Q.

(** What the browser can deliver: a click inside the canvas whose
    direction is the unit vector from the launch point to the target (the
    positive x axis when the two coincide, as [atan2(0, 0) = 0]). *)
Definition Click_ok (c : Click) : Prop :=
  let dx := (targetX c - startX)%Q in
  let dy := (targetY c - startY)%Q in
  (0 <= targetX c)%Q /\ (targetX c <= CANVAS_WIDTH)%Q /\
  (0 <= targetY c)%Q /\ (targetY c <= CANVAS_HEIGHT)%Q /\
  (cosAngle c * cosAngle c + sinAngle c * sinAngle c == 1)%Q /\
  (dx * sinAngle c == dy * cosAngle c)%Q /\
  (0 <= dx * cosAngle c + dy * sinAngle c)%Q /\
  ((dx == 0)%Q -> (dy == 0)%Q -> (cosAngle c == 1)%Q /\ (sinAngle c == 0)%Q) /\
  isDraw (nextDraw c).

Definition Event_ok (e : Event) : Prop :=
  match e with
  | Reset random _ => forall k, isDraw (random k)
  | Fire c => Click_ok c
  | Tick _ => True
  end.

(** States the game can be in: those a sequence of admissible events
    produces from the mounted component. *)
Definition reachable (s : State) : Prop :=
  exists r evs, isDraw r /\ Forall Event_ok evs /\ s = run evs (initialState r).

Definition withinWalls (b : Bubble.t) : Prop :=
  (BUBBLE_RADIUS <= Bubble.x b)%Q /\
  (Bubble.x b <= CANVAS_WIDTH - BUBBLE_RADIUS)%Q.

(** ** Sample positions

    A small field and a shot at it, used to exercise the theorems on
    concrete data: two red bubbles side by side under the ceiling, a green
    one hanging below them, and a red projectile about to touch the
    ceiling next to the pair. *)

Definition sampleBubble (row col : Z) (color id : string) : Bubble.t :=
  {| Bubble.x := getX row col; Bubble.y := getY row;
     Bubble.color := color; Bubble.id := id |}.

Definition red00 : Bubble.t := sampleBubble 0 0 "#FF5555" "0-0-0.25".
Definition red01 : Bubble.t := sampleBubble 0 1 "#FF5555" "0-1-0.5".
Definition green10 : Bubble.t := sampleBubble 1 0 "#55FF55" "1-0-0.75".
Definition blue30 : Bubble.t := sampleBubble 3 0 "#5555FF" "3-0-0.125".

Definition sampleField : list Bubble.t := [red00; red01; green10].

Definition sampleShot : Projectile.t :=
  {| Projectile.x := 100; Projectile.y := 27; Projectile.vx := 0;
     Projectile.vy := -8; Projectile.color := "#FF5555" |}.

Definition sampleState : State :=
  {| score := 0; gameState := playing; bubblesRef := sampleField;
     nextColor := "#55FF55"; projectileRef := Some sampleShot |}.

(** The bubble the sample shot turns into at time 5. *)
Definition sampleNew : Bubble.t :=
  newBubbleFor sampleField (moveProjectile sampleShot) 5.

(** One red bubble under the ceiling, a green one below it, and a red
    shot that lands beside the red one. *)
Definition pairState : State :=
  {| score := 0; gameState := playing; bubblesRef := [red00; green10];
     nextColor := "#55FF55";
     projectileRef :=
       Some {| Projectile.x := 60; Projectile.y := 27; Projectile.vx := 0;
               Projectile.vy := -8; Projectile.color := "#FF5555" |} |}.

(** A lone bubble in row 10 and a shot that comes to rest below it, in
    row 11, past the danger line. *)
Definition lowField : list Bubble.t := [sampleBubble 10 0 "#5555FF" "10-0-0.5"].

Definition lowShot : Projectile.t :=
  {| Projectile.x := 20; Projectile.y := 409; Projectile.vx := 0;
     Projectile.vy := -8; Projectile.color := "#FF5555" |}.

Definition lowState : State :=
  {| score := 0; gameState := playing; bubblesRef := lowField;
     nextColor := "#55FF55"; projectileRef := Some lowShot |}.

(** ** A game of two shots

    Every initial bubble is red and both projectiles are green.  The first
    click aims at (240, 310) and the bubble comes to rest in row 6, column
    7; the second aims at (220, 380), flies past the right wall and comes
    to rest in row 7, column 7. *)

Definition allRed (_ : nat) : Q := 0.
Definition showHalf (_ : Q) : string := "0.5".

Definition firstClick : Click :=
  {| targetX := 240; targetY := 310; cosAngle := 8 # 17;
     sinAngle := -15 # 17; nextDraw := 1 # 4 |}.

Definition secondClick : Click :=
  {| targetX := 220; targetY := 380; cosAngle := 3 # 5;
     sinAngle := -4 # 5; nextDraw := 1 # 4 |}.

(** [n] frames, 16 ms apart, the first at time [t0]. *)
Definition frames (n : nat) (t0 : Z) : list Event :=
  map (fun k => Tick (t0 + 16 * Z.of_nat k)) (seq 0 n).

Definition twoShots : list Event :=
  [Reset allRed showHalf; Fire firstClick] ++ frames 33 1000
  ++ [Fire secondClick] ++ frames 31 2000.

Definition afterTwoShots : State := run twoShots (initialState (1 # 4)).

(** ** Notions used to state what the engine keeps *)

(** The grid address of a stored bubble, as [isOccupied] computes it. *)
Definition cellOf (b : Bubble.t) : Z * Z :=
  let br := getRow (Bubble.y b) in (br, getCol (Bubble.x b) br).

(** The bubble sits at the pixel centre of its own grid address. *)
Definition onGrid (b : Bubble.t) : Prop :=
  Bubble.x b = getX (fst (cellOf b)) (snd (cellOf b)) /\
  Bubble.y b = getY (fst (cellOf b)).

(** The initial population with the index of its first random draw. *)
Definition initialSlots : list (nat * (Z * Z)) :=
  combine (map (fun i => (2 * i)%nat) (seq 0 45)) offsetRowCells.

(** A new game right after the component is mounted. *)
Definition freshGame : State :=
  run [Reset allRed showHalf] (initialState (1 # 4)).

(** Where a projectile in flight can be: between the walls, or at most
    one step beyond a wall and already heading back. *)
Definition nearWalls (p : Projectile.t) : Prop :=
  ((BUBBLE_RADIUS <= Projectile.x p)%Q /\
   (Projectile.x p <= CANVAS_WIDTH - BUBBLE_RADIUS)%Q)
  \/
  ((Projectile.x p < BUBBLE_RADIUS)%Q /\
   (BUBBLE_RADIUS - Projectile.vx p <= Projectile.x p)%Q /\
   (0 < Projectile.vx p)%Q)
  \/
  ((CANVAS_WIDTH - BUBBLE_RADIUS < Projectile.x p)%Q /\
   (Projectile.x p <= CANVAS_WIDTH - BUBBLE_RADIUS - Projectile.vx p)%Q /\
   (Projectile.vx p < 0)%Q).

(** The first shot of [twoShots], just fired. *)
Definition firstShotFired : State :=
  run [Reset allRed showHalf; Fire firstClick] (initialState (1 # 4)).

(** A bubble is grounded when a chain of bubbles, each closer than
    2.5 * radius to the previous one, leads to it from a bubble of the
    ceiling row. *)
Definition grounded (currentBubbles : list Bubble.t) (b : Bubble.t) : Prop :=
  exists t, In t currentBubbles /\ isTopRow t = true /\
            connected near currentBubbles t b.

(** A bubble hanging alone in row 3. *)
Definition hangingField : list Bubble.t := [blue30].

(** The six cells around a cell of the staggered grid: left and right in
    the same row, and in each adjacent row the cell at the same column and
    the one next to it on the side the row is shifted to. *)
Definition hexAdjacent (c c' : Z * Z) : Prop :=
  (fst c' = fst c /\ (snd c' = snd c - 1 \/ snd c' = snd c + 1))
  \/
  ((fst c' = fst c - 1 \/ fst c' = fst c + 1) /\
   (snd c' = snd c \/
    snd c' = if isOffset (fst c) then snd c + 1 else snd c - 1)).

(** The shift of a row in units of one radius. *)
Definition offsetUnits (row : Z) : Z := if isOffset row then 1 else 0.

(** The first [n] characters of a string. *)
Fixpoint idPrefix (n : nat) (s : string) : string :=
  match n, s with
  | S n', String c s' => String c (idPrefix n' s')
  | _, _ => EmptyString
  end.

(** A click level with the launch point, to its right. *)
Definition levelClick : Click :=
  {| targetX := 300; targetY := 460; cosAngle := 1; sinAngle := 0;
     nextDraw := 1 # 4 |}.

Definition levelShotFired : State :=
  run [Reset allRed showHalf; Fire levelClick] (initialState (1 # 4)).

Definition isTickOrFire (e : Event) : bool := negb (isReset e).

(** ** Cosmetic queues (lines 71-87, 226-240, 310-343, 436-446)

    The hearts of an explosion and the floating pictures live in two
    arrays of their own; a frame ages them before it looks at the
    projectile.  Drawing is left out. *)

Module HeartParticle.
Record t : Type := mk {
  x : Q; y : Q; vx : Q; vy : Q; size : Q; opacity : Q; id : string
}.
End HeartParticle.

Module FloatingImage.
Record t : Type := mk {
  x : Q; y : Q; opacity : Q; imageIndex : Z; id : string
}.
End FloatingImage.

(** What one round of [createHeartExplosion] draws: the cosine and sine
    of the random angle, the two other results of [Math.random], and the
    clock. *)
Record HeartDraw : Type := mkHeartDraw {
  heartCos : Q; heartSin : Q; speedDraw : Q; sizeDraw : Q; heartNow : Z
}.

(** Lines 226-240. *)
Definition createHeartExplosion (x y : Q) (draws : nat -> HeartDraw)
    (heartParticles : list HeartParticle.t) : list HeartParticle.t :=
  fold_left
    (fun hs i =>
       let d := draws i in
       let speed := (1 + speedDraw d * 3)%Q in
       hs ++ [{| HeartParticle.x := x; HeartParticle.y := y;
                 HeartParticle.vx := (heartCos d * speed)%Q;
                 HeartParticle.vy := (heartSin d * speed)%Q;
                 HeartParticle.size := (4 + sizeDraw d * 6)%Q;
                 HeartParticle.opacity := 1;
                 HeartParticle.id :=
                   ("heart-" ++ pretty (heartNow d) ++ "-"
                    ++ pretty (Z.of_nat i))%string |}])
    (seq 0 12) heartParticles.

(** Lines 334-338, for one particle. *)
Definition moveHeart (p : HeartParticle.t) : HeartParticle.t :=
  {| HeartParticle.x := (HeartParticle.x p + HeartParticle.vx p)%Q;
     HeartParticle.y := (HeartParticle.y p + HeartParticle.vy p)%Q;
     HeartParticle.vx := HeartParticle.vx p;
     HeartParticle.vy := (HeartParticle.vy p + 0.05)%Q;
     HeartParticle.size := HeartParticle.size p;
     HeartParticle.opacity := (HeartParticle.opacity p - 0.015)%Q;
     HeartParticle.id := HeartParticle.id p |}.

(** Lines 334-343: age every heart, then keep the visible ones. *)
Definition stepHearts (hs : list HeartParticle.t) : list HeartParticle.t :=
  List.filter (fun p => Qgtb (HeartParticle.opacity p) 0) (map moveHeart hs).

(** Lines 313-317, for one picture. *)
Definition moveImage (img : FloatingImage.t) : FloatingImage.t :=
  let y1 := (FloatingImage.y img - 3)%Q in
  {| FloatingImage.x := FloatingImage.x img;
     FloatingImage.y := y1;
     FloatingImage.opacity :=
       if Qltb y1 100 then (FloatingImage.opacity img - 0.02)%Q
       else FloatingImage.opacity img;
     FloatingImage.imageIndex := FloatingImage.imageIndex img;
     FloatingImage.id := FloatingImage.id img |}.

(** Lines 311-317: drop the pictures that have left through the top, then
    move the others up. *)
Definition stepFloatingImages (imgs : list FloatingImage.t)
    : list FloatingImage.t :=
  map moveImage
    (List.filter (fun img => Qgtb (FloatingImage.y img) (-100)) imgs).

(** Lines 440-446: the picture a match sends up from below the canvas;
    [r] is the draw for the picture index, [count] the number of pictures
    to choose from. *)
Definition launchImage (newBubble : Bubble.t) (r : Q) (count : Z) (now : Z)
    (imgs : list FloatingImage.t) : list FloatingImage.t :=
  imgs ++ [{| FloatingImage.x := Bubble.x newBubble;
              FloatingImage.y := (CANVAS_HEIGHT + 60)%Q;
              FloatingImage.opacity := 1;
              FloatingImage.imageIndex := Math_floor (r * inject_Z count);
              FloatingImage.id := ("float-" ++ pretty now)%string |}].

(** Draws for an explosion, all alike. *)
Definition sampleHeartDraw (_ : nat) : HeartDraw :=
  {| heartCos := 3 # 5; heartSin := 4 # 5; speedDraw := 1 # 2;
     sizeDraw := 1 # 2; heartNow := 5 |}.

(** A projectile flying straight up, one frame below the ceiling line. *)
Definition ceilingShotProjectile : Projectile.t :=
  {| Projectile.x := 320 # 2; Projectile.y := 20; Projectile.vx := 0;
     Projectile.vy := -8; Projectile.color := "#55FF55" |}.

(** ** Every click

    [Math.cos] and [Math.sin] return values between -1 and 1 whatever the
    angle, and [Math.random] a value in [0, 1).  Nothing else is asked of a
    click here, where it points included, so that every click the browser
    delivers is covered. *)
Definition Click_bounded (c : Click) : Prop :=
  (- (1) <= cosAngle c)%Q /\ (cosAngle c <= 1)%Q /\
  (- (1) <= sinAngle c)%Q /\ (sinAngle c <= 1)%Q /\
  isDraw (nextDraw c).

Definition Event_bounded (e : Event) : Prop :=
  match e with
  | Reset random _ => forall k, isDraw (random k)
  | Fire c => Click_bounded c
  | Tick _ => True
  end.

(** The states of the game: those a sequence of resets, clicks and frames
    produces from the mounted component. *)
Definition attainable (s : State) : Prop :=
  exists r evs,
    isDraw r /\ Forall Event_bounded evs /\ s = run evs (initialState r).

(** What holds of a projectile the engine keeps between two frames: no
    component of its velocity exceeds 8, it is between the walls or one
    step beyond one and heading back, and it is neither above the ceiling
    line nor below the canvas by more than a radius. *)
Definition inFlight (p : Projectile.t) : Prop :=
  (- (8) <= Projectile.vx p)%Q /\ (Projectile.vx p <= 8)%Q /\
  (- (8) <= Projectile.vy p)%Q /\ (Projectile.vy p <= 8)%Q /\
  nearWalls p /\
  (BUBBLE_RADIUS <= Projectile.y p)%Q /\
  (Projectile.y p <= CANVAS_HEIGHT + BUBBLE_RADIUS)%Q.

(** Grid addresses on the board or next to it. *)
Definition onBoard (cell : Z * Z) : Prop :=
  0 <= fst cell <= 15 /\ -2 <= snd cell <= 8.

(** ** Basic facts about the numeric helpers *)

Lemma Qltb_lt (a b : Q) : Qltb a b = true <-> (a < b)%Q.
Proof.
  unfold Qltb. rewrite negb_true_iff. split.
  - intros H. apply Qnot_le_lt. intros Hle.
    apply Qle_bool_iff in Hle. congruence.
  - intros H. destruct (Qle_bool b a) eqn:E; [|reflexivity].
    apply Qle_bool_iff in E. exfalso. exact (Qlt_not_le _ _ H E).
Qed.

Lemma Qltb_ge (a b : Q) : Qltb a b = false <-> (b <= a)%Q.
Proof.
  unfold Qltb. rewrite negb_false_iff. apply Qle_bool_iff.
Qed.

Lemma Math_round_inject_Z (n : Z) : Math_round (inject_Z n) = n.
Proof.
  unfold Math_round, Qfloor, inject_Z, Qplus. simpl.
  rewrite Z.mul_1_r.
  replace (n * 2 + 1) with (1 + n * 2) by lia.
  rewrite Z.div_add by lia. reflexivity.
Qed.

Lemma Math_round_comp (p q : Q) : (p == q)%Q -> Math_round p = Math_round q.
Proof.
  intros H. unfold Math_round. apply Qfloor_comp. rewrite H. reflexivity.
Qed.

(** Over the reals, comparing a distance with a non-negative bound is
    comparing the squares. *)
Lemma getDistance_lt_sound (x1 y1 x2 y2 c : Q) :
  (0 <= c)%Q ->
  (sqrt (Q2R (getDistanceSq x1 y1 x2 y2)) < Q2R c)%R
  <-> getDistance_ltb x1 y1 x2 y2 c = true.
Proof.
  intros Hc. unfold getDistance_ltb. rewrite Qltb_lt.
  assert (Hd : (0 <= Q2R (getDistanceSq x1 y1 x2 y2))%R).
  { unfold getDistanceSq. rewrite Q2R_plus, !Q2R_mult.
    pose proof (Rle_0_sqr (Q2R (x2 - x1))) as H1.
    pose proof (Rle_0_sqr (Q2R (y2 - y1))) as H2.
    unfold Rsqr in H1, H2. lra. }
  assert (Hc' : (0 <= Q2R c)%R).
  { replace 0%R with (Q2R 0) by (unfold Q2R; simpl; lra). apply Qle_Rle, Hc. }
  split.
  - intros H. apply Rlt_Qlt. rewrite Q2R_mult.
    rewrite <- (sqrt_sqrt _ Hd).
    pose proof (sqrt_pos (Q2R (getDistanceSq x1 y1 x2 y2))) as Hs.
    apply Rmult_le_0_lt_compat; assumption.
  - intros H. apply Qlt_Rlt in H. rewrite Q2R_mult in H.
    rewrite <- (sqrt_square _ Hc'). apply sqrt_lt_1; try assumption.
    apply Rmult_le_pos; assumption.
Qed.

Lemma getDistance_order_sound (a b : Q) :
  (0 <= a)%Q ->
  (sqrt (Q2R a) < sqrt (Q2R b))%R <-> (a < b)%Q.
Proof.
  intros Ha.
  assert (Ha' : (0 <= Q2R a)%R).
  { replace 0%R with (Q2R 0) by (unfold Q2R; simpl; lra). apply Qle_Rle, Ha. }
  split.
  - intros H. apply Rlt_Qlt. apply sqrt_lt_0_alt. exact H.
  - intros H. apply sqrt_lt_1_alt. split; [exact Ha' | apply Qlt_Rlt, H].
Qed.

Lemma getDistanceSq_nonneg (x1 y1 x2 y2 : Q) :
  (0 <= getDistanceSq x1 y1 x2 y2)%Q.
Proof.
  assert (Hsq : forall q : Q, (0 <= q * q)%Q).
  { intros [n d]. unfold Qle, Qmult. simpl. nia. }
  unfold getDistanceSq.
  replace 0%Q with (0 + 0)%Q by reflexivity.
  apply Qplus_le_compat; apply Hsq.
Qed.

(** ** The coordinate mapper *)

Lemma getRow_getY (row : Z) : getRow (getY row) = row.
Proof.
  unfold getRow, getY.
  rewrite <- (Math_round_inject_Z row) at 2.
  apply Math_round_comp.
  unfold BUBBLE_RADIUS, ROW_FACTOR. field.
Qed.

Lemma getCol_getX (row col : Z) : getCol (getX row col) row = col.
Proof.
  unfold getCol, getX.
  rewrite <- (Math_round_inject_Z col) at 2.
  apply Math_round_comp.
  unfold BUBBLE_RADIUS. destruct (isOffset row); field.
Qed.

(** ** The mapper and the neighbour search in double precision *)

Section Doubles.
Import PrimFloat FloatOps SpecFloat FloatAxioms.
Local Open Scope float_scope.

(** *** The order of doubles *)










(** *** The round trip *)

Lemma allFrom_spec (P : float -> bool) (n : nat) (x : float) :
  Binary64.allFrom P n x = true ->
  forall i, (i < n)%nat -> P (Nat.iter i (fun x => x + 1) x) = true.
Proof.
  revert x. induction n as [|n IH]; intros x H i Hi; [lia|].
  simpl in H. apply andb_prop in H. destruct H as [H0 H].
  destruct i as [|i]; [exact H0|].
  rewrite Nat.iter_succ_r. apply IH; [exact H | lia].
Qed.

Lemma rows_round_trip :
  Binary64.allFrom Binary64.rowTrips 4096 0 = true.
Proof. vm_compute. reflexivity. Qed.

Lemma cols_round_trip :
  Binary64.allFrom
    (fun c => Binary64.colTrips true c && Binary64.colTrips false c)
    4096 0 = true.
Proof. vm_compute. reflexivity. Qed.

(** C1 as stated fails.  The engine computes in double precision, and at
    row 2251799813685275 the quotient (getY(row) - 20) / 34.64 comes out as
    2251799813685275.5, which Math.round takes to the next row: the round
    trip returns row + 1. *)
Lemma round_trip_fails_far_out :
  (Binary64.getRow (Binary64.getY 2251799813685275) =? 2251799813685275)
  = false /\
  (Binary64.getRow (Binary64.getY 2251799813685275) =? 2251799813685276)
  = true.
Proof. split; vm_compute; reflexivity. Qed.

(** C1, amended: in double precision, as the engine computes, the
    coordinate mapper round-trips on every grid address (row, col) with
    0 <= row < 4096 and 0 <= col < 4096, which covers every address of the
    board: getRow(getY(row)) == row and getCol(getX(row, col), row) == col. *)
Theorem coordinate_round_trip_on_board (row col : nat) :
  (row < 4096)%nat -> (col < 4096)%nat ->
  (Binary64.getRow (Binary64.getY (Binary64.ofNat row)) =? Binary64.ofNat row)
  = true /\
  (Binary64.getCol
     (Binary64.getX (Binary64.ofNat row) (Binary64.ofNat col))
     (Binary64.ofNat row)
   =? Binary64.ofNat col) = true.
Proof.
  intros Hr Hc. split.
  - exact (allFrom_spec _ _ _ rows_round_trip row Hr).
  - pose proof (allFrom_spec _ _ _ cols_round_trip col Hc) as H.
    cbv beta in H. apply andb_prop in H. destruct H as [Ht Hf].
    unfold Binary64.getCol, Binary64.getX.
    destruct (Binary64.isOffset (Binary64.ofNat row));
      [exact Ht | exact Hf].
Qed.

Lemma coordinate_round_trip_on_board_witness :
  (5 < 4096)%nat /\ (3 < 4096)%nat /\
  (Binary64.getRow (Binary64.getY (Binary64.ofNat 5)) =? Binary64.ofNat 5)
  = true /\
  (Binary64.getCol
     (Binary64.getX (Binary64.ofNat 5) (Binary64.ofNat 3))
     (Binary64.ofNat 5)
   =? Binary64.ofNat 3) = true.
Proof.
  split; [lia|]. split; [lia|].
  apply (coordinate_round_trip_on_board 5 3); lia.
Defined.

(** *** The neighbour search *)

Section Search.

Variable bubbles : list Binary64.Bubble.t.
Variables prevX prevY row col : float.






End Search.




End Doubles.

(** ** Flood fill: termination and what it computes *)

Lemma unvisited_true (v : gset string) (b : Bubble.t) :
  unvisited v b = true <-> Bubble.id b ∉ v.
Proof.
  unfold unvisited. rewrite negb_true_iff, bool_decide_eq_false. reflexivity.
Qed.

Lemma unvisited_false (v : gset string) (b : Bubble.t) :
  unvisited v b = false <-> Bubble.id b ∈ v.
Proof.
  unfold unvisited. rewrite negb_false_iff, bool_decide_eq_true. reflexivity.
Qed.

Lemma forEach_None visit (l : list Bubble.t) : forEach visit l None = None.
Proof. induction l as [|n l IH]; [reflexivity | exact IH]. Qed.

Lemma forEach_cons visit (n : Bubble.t) (l : list Bubble.t) (v : gset string) :
  forEach visit (n :: l) (Some v) = forEach visit l (visit v n).
Proof. reflexivity. Qed.

(** Invariant rule for [forEach]. *)
Lemma forEach_inv (P : gset string -> Prop) visit (l : list Bubble.t) :
  (forall v n r, In n l -> P v -> visit v n = Some r -> P r) ->
  forall v r, P v -> forEach visit l (Some v) = Some r -> P r.
Proof.
  induction l as [|n l IH]; intros Hstep v r Hv Hrun.
  - simpl in Hrun. congruence.
  - rewrite forEach_cons in Hrun.
    destruct (visit v n) as [v'|] eqn:Hn.
    + apply (IH (fun v0 n0 r0 Hin => Hstep v0 n0 r0 (or_intror Hin)) v' r);
        [|exact Hrun].
      apply (Hstep v n v'); [left; reflexivity | exact Hv | exact Hn].
    + rewrite forEach_None in Hrun. discriminate.
Qed.

Lemma unvisitedCount_mono (cb : list Bubble.t) (v v' : gset string) :
  v ⊆ v' -> (unvisitedCount cb v' <= unvisitedCount cb v)%nat.
Proof.
  intros Hsub. unfold unvisitedCount.
  induction cb as [|b cb IH]; simpl; [lia|].
  destruct (unvisited v' b) eqn:E'; destruct (unvisited v b) eqn:E; simpl;
    try lia.
  apply unvisited_true in E'. apply unvisited_false in E.
  exfalso. apply E'. apply Hsub. exact E.
Qed.

Lemma unvisitedCount_lt (cb : list Bubble.t) (v v' : gset string)
    (n : Bubble.t) :
  v ⊆ v' -> In n cb -> Bubble.id n ∉ v -> Bubble.id n ∈ v' ->
  (unvisitedCount cb v' < unvisitedCount cb v)%nat.
Proof.
  intros Hsub Hin Hout Hin'. unfold unvisitedCount.
  induction cb as [|b cb IH]; simpl; [destruct Hin|].
  pose proof (unvisitedCount_mono cb v v' Hsub) as Hle.
  unfold unvisitedCount in Hle.
  destruct Hin as [-> | Hin].
  - apply unvisited_true in Hout. apply unvisited_false in Hin'.
    rewrite Hout, Hin'. simpl. lia.
  - specialize (IH Hin).
    destruct (unvisited v' b) eqn:E'; destruct (unvisited v b) eqn:E; simpl;
      try lia.
    apply unvisited_true in E'. apply unvisited_false in E.
    exfalso. apply E'. apply Hsub. exact E.
Qed.

Lemma unvisitedCount_le_length (cb : list Bubble.t) (v : gset string) :
  (unvisitedCount cb v <= length cb)%nat.
Proof. unfold unvisitedCount. apply List.filter_length_le. Qed.

Section FloodFill.

Variable adj : Bubble.t -> Bubble.t -> bool.
Variable cb : list Bubble.t.

Lemma floodFill_S (fuel : nat) (v : gset string) (b : Bubble.t) :
  floodFill adj (S fuel) cb v b =
  forEach (floodFill adj fuel cb)
    (List.filter
       (fun n => unvisited ({[Bubble.id b]} ∪ v) n && adj n b) cb)
    (Some ({[Bubble.id b]} ∪ v)).
Proof. reflexivity. Qed.

Lemma neighbors_spec (v : gset string) (b n : Bubble.t) :
  In n (List.filter (fun n => unvisited v n && adj n b) cb) <->
  In n cb /\ (Bubble.id n ∉ v) /\ adj n b = true.
Proof.
  rewrite List.filter_In, andb_true_iff, unvisited_true. tauto.
Qed.

(** The set only grows, and the visited bubble is in it. *)
Lemma floodFill_incl (fuel : nat) :
  forall v b r, floodFill adj fuel cb v b = Some r ->
                {[Bubble.id b]} ∪ v ⊆ r.
Proof.
  induction fuel as [|fuel IH]; intros v b r H; [discriminate|].
  rewrite floodFill_S in H.
  revert H. apply (forEach_inv (fun r => {[Bubble.id b]} ∪ v ⊆ r));
    [|reflexivity].
  intros v0 n r0 _ Hv0 Hn. apply IH in Hn. set_solver.
Qed.

(** Termination: a depth bound above the number of unvisited bubbles is
    never hit. *)
Lemma floodFill_total (fuel : nat) :
  forall v b, (unvisitedCount cb ({[Bubble.id b]} ∪ v) < fuel)%nat ->
              exists r, floodFill adj fuel cb v b = Some r.
Proof.
  induction fuel as [|fuel IH]; intros v b Hfuel; [lia|].
  rewrite floodFill_S.
  set (v1 := {[Bubble.id b]} ∪ v) in *.
  assert (Hloop : forall ns acc,
             (forall n, In n ns -> In n cb /\ Bubble.id n ∉ v1) ->
             v1 ⊆ acc ->
             exists r, forEach (floodFill adj fuel cb) ns (Some acc) = Some r).
  { induction ns as [|n ns IHns]; intros acc Hns Hacc.
    - exists acc. reflexivity.
    - destruct (Hns n (or_introl eq_refl)) as [Hin Hout].
      destruct (IH acc n) as [r' Hr'].
      { assert ((unvisitedCount cb ({[Bubble.id n]} ∪ acc)
                 < unvisitedCount cb v1)%nat); [|lia].
        apply (unvisitedCount_lt cb v1 _ n);
          [set_solver | exact Hin | exact Hout | set_solver]. }
      rewrite forEach_cons, Hr'.
      apply IHns; [intros m Hm; apply Hns; right; exact Hm|].
      apply floodFill_incl in Hr'. set_solver. }
  apply Hloop; [|reflexivity].
  intros n Hn. apply neighbors_spec in Hn. tauto.
Qed.

(** More fuel does not change a result. *)
Lemma floodFill_fuel_mono (fuel : nat) :
  forall fuel' v b r, (fuel <= fuel')%nat ->
    floodFill adj fuel cb v b = Some r ->
    floodFill adj fuel' cb v b = Some r.
Proof.
  induction fuel as [|fuel IH]; intros fuel' v b r Hle H; [discriminate|].
  destruct fuel' as [|fuel']; [lia|].
  rewrite floodFill_S in *.
  revert H.
  generalize (List.filter
                (fun n => unvisited ({[Bubble.id b]} ∪ v) n && adj n b) cb).
  generalize ({[Bubble.id b]} ∪ v).
  intros acc l. revert acc. induction l as [|n l IHl]; intros acc H; [exact H|].
  rewrite forEach_cons in *.
  destruct (floodFill adj fuel cb acc n) as [v'|] eqn:Hn.
  - rewrite (IH fuel' acc n v'); [apply IHl; exact H | lia | exact Hn].
  - rewrite forEach_None in H. discriminate.
Qed.

Lemma floodFill_enough (fuel : nat) (b : Bubble.t) :
  (length cb < fuel)%nat ->
  floodFill adj fuel cb ∅ b = floodFill adj (S (length cb)) cb ∅ b
  /\ exists r, floodFill adj (S (length cb)) cb ∅ b = Some r.
Proof.
  intros Hfuel.
  destruct (floodFill_total (S (length cb)) ∅ b) as [r Hr].
  { pose proof (unvisitedCount_le_length cb ({[Bubble.id b]} ∪ ∅)). lia. }
  split; [|exists r; exact Hr].
  rewrite Hr. apply (floodFill_fuel_mono (S (length cb))); [lia | exact Hr].
Qed.

(** Every id in the set belongs to a bubble joined to the seed. *)
Lemma floodFill_sound (seed : Bubble.t) (fuel : nat) :
  forall v b r,
    floodFill adj fuel cb v b = Some r ->
    connected adj cb seed b ->
    (forall i, i ∈ v -> exists c, connected adj cb seed c /\ Bubble.id c = i) ->
    forall i, i ∈ r -> exists c, connected adj cb seed c /\ Bubble.id c = i.
Proof.
  induction fuel as [|fuel IH]; intros v b r H Hb Hv; [discriminate|].
  rewrite floodFill_S in H.
  assert (Hstep : forall n,
             In n (List.filter
                     (fun n => unvisited ({[Bubble.id b]} ∪ v) n && adj n b)
                     cb) ->
             connected adj cb seed n).
  { intros n Hn. apply neighbors_spec in Hn. destruct Hn as (Hin & _ & Hadj).
    exact (connected_step adj cb seed b n Hb Hin Hadj). }
  revert H.
  apply (forEach_inv
           (fun r => forall i, i ∈ r ->
                     exists c, connected adj cb seed c /\ Bubble.id c = i)).
  - intros v0 n r0 Hn Hv0 Hrun. exact (IH v0 n r0 Hrun (Hstep n Hn) Hv0).
  - intros i Hi. apply elem_of_union in Hi. destruct Hi as [Hi | Hi].
    + apply elem_of_singleton in Hi. subst i. exists b. split; [exact Hb|reflexivity].
    + apply Hv. exact Hi.
Qed.

(** Every id the call adds belongs to a bubble all of whose neighbours
    are in the final set, when ids identify bubbles. *)
Lemma floodFill_closed (seed : Bubble.t)
    (Huniq : forall c1 c2, In c1 (seed :: cb) -> In c2 (seed :: cb) ->
                           Bubble.id c1 = Bubble.id c2 -> c1 = c2)
    (fuel : nat) :
  forall v b r,
    floodFill adj fuel cb v b = Some r ->
    In b (seed :: cb) ->
    forall c, In c (seed :: cb) -> Bubble.id c ∈ r -> Bubble.id c ∉ v ->
    forall n, In n cb -> adj n c = true -> Bubble.id n ∈ r.
Proof.
  induction fuel as [|fuel IH]; intros v b r H Hb; [discriminate|].
  rewrite floodFill_S in H.
  set (v1 := {[Bubble.id b]} ∪ v) in *.
  set (ns := List.filter (fun n => unvisited v1 n && adj n b) cb) in *.
  assert (Hloop : forall l acc r,
             (forall n, In n l -> In n cb) ->
             forEach (floodFill adj fuel cb) l (Some acc) = Some r ->
             acc ⊆ r /\ (forall n, In n l -> Bubble.id n ∈ r) /\
             forall c, In c (seed :: cb) -> Bubble.id c ∈ r ->
                       Bubble.id c ∉ acc ->
             forall n, In n cb -> adj n c = true -> Bubble.id n ∈ r).
  { clear H. induction l as [|n l IHl]; intros acc r0 Hl H.
    - simpl in H. injection H as <-. split; [reflexivity|].
      split; [intros n []|]. intros c _ Hc Hc'. contradiction.
    - rewrite forEach_cons in H.
      destruct (floodFill adj fuel cb acc n) as [v'|] eqn:Hn;
        [|rewrite forEach_None in H; discriminate].
      pose proof (floodFill_incl _ _ _ _ Hn) as Hinc.
      destruct (IHl v' r0 (fun m Hm => Hl m (or_intror Hm)) H)
        as (Hsub & Hall & Hcl).
      split; [set_solver|]. split.
      + intros m [<- | Hm]; [set_solver | apply Hall; exact Hm].
      + intros c Hc Hcr Hcacc m Hm Hadj.
        destruct (decide (Bubble.id c ∈ v')) as [Hcv' | Hcv'].
        * apply Hsub.
          apply (IH acc n v' Hn (or_intror (Hl n (or_introl eq_refl)))
                    c Hc Hcv' Hcacc m Hm Hadj).
        * exact (Hcl c Hc Hcr Hcv' m Hm Hadj). }
  destruct (Hloop ns v1 r) as (Hsub & Hall & Hcl).
  { intros n Hn. apply neighbors_spec in Hn. tauto. }
  { exact H. }
  intros c Hc Hcr Hcv n Hn Hadj.
  destruct (decide (Bubble.id c ∈ v1)) as [Hcv1 | Hcv1].
  - assert (Bubble.id c = Bubble.id b) as Heq by set_solver.
    apply (Huniq c b Hc Hb) in Heq. subst c.
    destruct (decide (Bubble.id n ∈ v1)) as [Hnv | Hnv].
    + apply Hsub. exact Hnv.
    + apply Hall. apply neighbors_spec. tauto.
  - exact (Hcl c Hc Hcr Hcv1 n Hn Hadj).
Qed.

End FloodFill.

(** Visiting a list of bubbles one after the other, with enough fuel,
    returns a set that holds what was there and every visited id. *)
Lemma forEach_floodFill adj (cb : list Bubble.t) (fuel : nat) :
  (length cb < fuel)%nat ->
  forall l acc, exists r,
    forEach (floodFill adj fuel cb) l (Some acc) = Some r /\ acc ⊆ r /\
    forall n, In n l -> Bubble.id n ∈ r.
Proof.
  intros Hfuel. induction l as [|n l IH]; intros acc.
  - exists acc. split; [reflexivity|]. split; [reflexivity | intros n []].
  - destruct (floodFill_total adj cb fuel acc n) as [v' Hv'].
    { pose proof (unvisitedCount_le_length cb ({[Bubble.id n]} ∪ acc)). lia. }
    destruct (IH v') as (r & Hr & Hsub & Hall).
    pose proof (floodFill_incl _ _ _ _ _ _ Hv') as Hinc.
    exists r. rewrite forEach_cons, Hv'. split; [exact Hr|].
    split; [set_solver|].
    intros m [<- | Hm]; [set_solver | apply Hall; exact Hm].
Qed.

(** ** The match engine *)

Lemma findMatches_returns (seed : Bubble.t) (cb : list Bubble.t) :
  findMatches_fuel (S (length cb)) seed cb ∅ = Some (findMatches seed cb).
Proof.
  unfold findMatches, findMatches_fuel.
  destruct (floodFill_enough sameColorNear cb (S (length cb)) seed)
    as [_ [r Hr]]; [lia|].
  rewrite Hr. reflexivity.
Qed.

Lemma findMatches_enough (fuel : nat) (seed : Bubble.t) (cb : list Bubble.t) :
  (length cb < fuel)%nat ->
  findMatches_fuel fuel seed cb ∅ = Some (findMatches seed cb).
Proof.
  intros Hfuel. rewrite <- findMatches_returns. unfold findMatches_fuel.
  apply (floodFill_enough sameColorNear cb fuel seed Hfuel).
Qed.

Lemma findMatches_seed (seed : Bubble.t) (cb : list Bubble.t) :
  Bubble.id seed ∈ findMatches seed cb.
Proof.
  pose proof (findMatches_returns seed cb) as H.
  apply floodFill_incl in H. set_solver.
Qed.

Lemma connected_in adj (cb : list Bubble.t) (seed b : Bubble.t) :
  connected adj cb seed b -> In b (seed :: cb).
Proof.
  intros H. destruct H; [left; reflexivity | right; assumption].
Qed.

Lemma connected_sameColor (cb : list Bubble.t) (seed b : Bubble.t) :
  connected sameColorNear cb seed b -> Bubble.color b = Bubble.color seed.
Proof.
  induction 1 as [|b n _ IH _ Hadj]; [reflexivity|].
  unfold sameColorNear in Hadj. apply andb_true_iff in Hadj.
  destruct Hadj as [Hc _]. apply String.eqb_eq in Hc. congruence.
Qed.

(** [findMatches] returns the ids of the bubbles joined to the seed ... *)
Lemma findMatches_sound (seed : Bubble.t) (cb : list Bubble.t) (i : string) :
  i ∈ findMatches seed cb ->
  exists b, connected sameColorNear cb seed b /\ Bubble.id b = i.
Proof.
  intros Hi.
  apply (floodFill_sound sameColorNear cb seed _ _ _ _
           (findMatches_returns seed cb) (connected_seed _ _ _));
    [|exact Hi].
  intros j Hj. set_solver.
Qed.

(** ... and, when ids identify bubbles, of all of them. *)
Lemma findMatches_complete (seed : Bubble.t) (cb : list Bubble.t)
    (b : Bubble.t) :
  uniqueIds (seed :: cb) ->
  connected sameColorNear cb seed b -> Bubble.id b ∈ findMatches seed cb.
Proof.
  intros Huniq. induction 1 as [|b n Hb IH Hn Hadj].
  - apply findMatches_seed.
  - apply (floodFill_closed sameColorNear cb seed Huniq _ _ _ _
             (findMatches_returns seed cb) (or_introl eq_refl)
             b (connected_in _ _ _ _ Hb) IH);
      [set_solver | exact Hn | exact Hadj].
Qed.

(** C8: for every seed bubble and every bubble field, the set returned by
    findMatches contains only bubbles whose colour equals the seed's colour;
    it never contains two bubbles of different colours.  The call returns;
    every id in the returned set is the id of a seed-coloured bubble; and,
    ids being unique, every bubble whose id is in the set has the seed's
    colour. *)
Theorem findMatches_no_false_matches (seed : Bubble.t) (cb : list Bubble.t) :
  findMatches_fuel (S (length cb)) seed cb ∅ = Some (findMatches seed cb) /\
  (forall i, i ∈ findMatches seed cb ->
     exists b, In b (seed :: cb) /\ Bubble.id b = i /\
               Bubble.color b = Bubble.color seed) /\
  (uniqueIds (seed :: cb) ->
   forall b, In b (seed :: cb) -> Bubble.id b ∈ findMatches seed cb ->
             Bubble.color b = Bubble.color seed).
Proof.
  split; [apply findMatches_returns|]. split.
  - intros i Hi. destruct (findMatches_sound seed cb i Hi) as (b & Hb & Hid).
    exists b. split; [exact (connected_in _ _ _ _ Hb)|].
    split; [exact Hid | exact (connected_sameColor _ _ _ Hb)].
  - intros Huniq b Hb Hi.
    destruct (findMatches_sound seed cb _ Hi) as (c & Hc & Hid).
    rewrite <- (Huniq c b (connected_in _ _ _ _ Hc) Hb Hid).
    exact (connected_sameColor _ _ _ Hc).
Qed.

(** ** The connectivity engine *)

Lemma connectedToTop_returns (cb : list Bubble.t) :
  exists r, connectedToTop_fuel (S (length cb)) cb = Some r /\
            forall b, In b cb -> isTopRow b = true -> Bubble.id b ∈ r.
Proof.
  unfold connectedToTop_fuel, traverse.
  destruct (forEach_floodFill near cb (S (length cb)) (Nat.lt_succ_diag_r _)
              (List.filter isTopRow cb) ∅) as (r & Hr & _ & Hall).
  exists r. split; [exact Hr|].
  intros b Hb Htop. apply Hall. apply List.filter_In. tauto.
Qed.

Lemma findFloatingBubbles_returns (cb : list Bubble.t) :
  findFloatingBubbles_fuel (S (length cb)) cb
  = Some (findFloatingBubbles cb).
Proof.
  unfold findFloatingBubbles, findFloatingBubbles_fuel.
  destruct (connectedToTop_returns cb) as (r & Hr & _).
  rewrite Hr. reflexivity.
Qed.

Lemma findFloatingBubbles_incl (cb : list Bubble.t) (b : Bubble.t) :
  In b (findFloatingBubbles cb) -> In b cb.
Proof.
  unfold findFloatingBubbles, findFloatingBubbles_fuel.
  destruct (connectedToTop_fuel (S (length cb)) cb) as [r|]; simpl;
    [|intros []].
  intros H. apply List.filter_In in H. tauto.
Qed.

(** C4: for every bubble field, every bubble in the ceiling row
    (y <= 2 * radius) is classified as grounded: findFloatingBubbles
    returns, and never includes a ceiling-row bubble in its result. *)
Theorem ceiling_row_grounded (cb : list Bubble.t) (b : Bubble.t) :
  (Bubble.y b <= BUBBLE_RADIUS * 2)%Q ->
  findFloatingBubbles_fuel (S (length cb)) cb
  = Some (findFloatingBubbles cb) /\
  ~ In b (findFloatingBubbles cb).
Proof.
  intros Hy. split; [apply findFloatingBubbles_returns|].
  unfold findFloatingBubbles, findFloatingBubbles_fuel.
  destruct (connectedToTop_returns cb) as (r & Hr & Hall).
  rewrite Hr. simpl. intros Hin. apply List.filter_In in Hin.
  destruct Hin as [Hin Hun]. apply unvisited_true in Hun. apply Hun.
  apply Hall; [exact Hin|]. unfold isTopRow. apply Qle_bool_iff. exact Hy.
Qed.

(** ** Placement, scoring and termination *)

Lemma update_collided (s : State) (now : Z) (p : Projectile.t) :
  gameState s = playing -> projectileRef s = Some p ->
  collided (bubblesRef s) (moveProjectile p) = true ->
  update s now =
  let newBubble := newBubbleFor (bubblesRef s) (moveProjectile p) now in
  let r := settle (bubblesRef s) (score s) newBubble in
  {| score := snd r;
     gameState := if reachedDangerLine (fst r) then gameover else playing;
     bubblesRef := fst r; nextColor := nextColor s;
     projectileRef := None |}.
Proof.
  intros Hg Hp Hc. unfold update. rewrite Hg, Hp. simpl. rewrite Hc.
  destruct (settle _ _ _). reflexivity.
Qed.

Lemma settle_match (bubbles : list Bubble.t) (score0 : Z) (nb : Bubble.t) :
  let updated := bubbles ++ [nb] in
  let matches := findMatches nb updated in
  let afterMatch := removeIds matches updated in
  let floating := findFloatingBubbles afterMatch in
  3 <= Z.of_nat (size matches) ->
  settle bubbles score0 nb =
  (removeIds (list_to_set (map Bubble.id floating)) afterMatch,
   score0 + Z.of_nat (size matches) * 10 + Z.of_nat (length floating) * 20).
Proof.
  intros updated matches afterMatch floating Hm. unfold settle.
  fold updated. fold matches.
  destruct (3 <=? Z.of_nat (size matches)) eqn:E; [reflexivity|].
  apply Z.leb_gt in E. lia.
Qed.

Lemma settle_no_match (bubbles : list Bubble.t) (score0 : Z) (nb : Bubble.t) :
  Z.of_nat (size (findMatches nb (bubbles ++ [nb]))) < 3 ->
  settle bubbles score0 nb = (bubbles ++ [nb], score0).
Proof.
  intros Hm. unfold settle.
  destruct (3 <=? _) eqn:E; [|reflexivity].
  apply Z.leb_le in E. lia.
Qed.

Lemma removeIds_In (ids : gset string) (bs : list Bubble.t) (b : Bubble.t) :
  In b (removeIds ids bs) <-> In b bs /\ Bubble.id b ∉ ids.
Proof.
  unfold removeIds. rewrite List.filter_In, unvisited_true. reflexivity.
Qed.

(** C5: on a placement producing a match of size m >= 3 with f bubbles
    subsequently found floating, the score increases by exactly
    10*m + 20*f; on a non-match placement (set size < 3) the score is
    unchanged and no bubble is removed. *)
Theorem score_formula (s : State) (now : Z) (p : Projectile.t) :
  gameState s = playing -> projectileRef s = Some p ->
  collided (bubblesRef s) (moveProjectile p) = true ->
  let newBubble := newBubbleFor (bubblesRef s) (moveProjectile p) now in
  let updated := bubblesRef s ++ [newBubble] in
  let matches := findMatches newBubble updated in
  let floating := findFloatingBubbles (removeIds matches updated) in
  let m := Z.of_nat (size matches) in
  let f := Z.of_nat (length floating) in
  (3 <= m -> score (update s now) = score s + (10 * m + 20 * f)) /\
  (m < 3 -> score (update s now) = score s /\
            bubblesRef (update s now) = updated).
Proof.
  intros Hg Hp Hc newBubble updated matches floating m f.
  rewrite (update_collided s now p Hg Hp Hc). cbv zeta. fold newBubble.
  split.
  - intros Hm. rewrite (settle_match (bubblesRef s) (score s) newBubble Hm).
    simpl. fold updated matches floating m f. lia.
  - intros Hm. rewrite (settle_no_match (bubblesRef s) (score s) newBubble Hm).
    simpl. split; reflexivity.
Qed.

Lemma NoDup_ids_unique (bs : list Bubble.t) :
  NoDup (map Bubble.id bs) -> uniqueIds bs.
Proof.
  induction bs as [|a bs IH]; intros Hnd c1 c2 H1 H2 Heq; [destruct H1|].
  simpl in Hnd. apply NoDup_cons in Hnd. destruct Hnd as [Ha Hnd].
  assert (Hfresh : forall c, In c bs -> Bubble.id c <> Bubble.id a).
  { intros c Hc Hid. apply Ha. apply list_elem_of_In. rewrite <- Hid.
    apply List.in_map. exact Hc. }
  destruct H1 as [<- | H1]; destruct H2 as [<- | H2].
  - reflexivity.
  - exfalso. exact (Hfresh c2 H2 (eq_sym Heq)).
  - exfalso. exact (Hfresh c1 H1 Heq).
  - exact (IH Hnd c1 c2 H1 H2 Heq).
Qed.

Lemma NoDup_of_ids (bs : list Bubble.t) :
  NoDup (map Bubble.id bs) -> NoDup bs.
Proof.
  intros H. apply NoDup_ListNoDup. apply NoDup_ListNoDup in H.
  exact (List.NoDup_map_inv Bubble.id bs H).
Qed.

(** With unique ids, the size of the set [findMatches] returns is the
    number of bubbles joined to the seed. *)
Lemma findMatches_size (seed : Bubble.t) (cb members : list Bubble.t) :
  In seed cb -> uniqueIds cb -> NoDup members ->
  (forall b, In b members <-> connected sameColorNear cb seed b) ->
  findMatches seed cb = list_to_set (map Bubble.id members) /\
  size (findMatches seed cb) = length members.
Proof.
  intros Hseed Huniq Hnd Hmem.
  assert (Hin : forall b, In b (seed :: cb) -> In b cb).
  { intros b [<- | Hb]; assumption. }
  assert (Huniq' : uniqueIds (seed :: cb)).
  { intros c1 c2 H1 H2. apply Huniq; apply Hin; assumption. }
  assert (Heq : findMatches seed cb = list_to_set (map Bubble.id members)).
  { apply set_eq. intros i. rewrite elem_of_list_to_set, list_elem_of_In.
    rewrite List.in_map_iff. split.
    - intros Hi. destruct (findMatches_sound seed cb i Hi) as (b & Hb & Hid).
      exists b. split; [exact Hid | apply Hmem; exact Hb].
    - intros (b & Hid & Hb). subst i.
      apply findMatches_complete; [exact Huniq' | apply Hmem; exact Hb]. }
  split; [exact Heq|].
  rewrite Heq, size_list_to_set; [apply List.length_map|].
  apply NoDup_ListNoDup, List.NoDup_map_NoDup_ForallPairs;
    [|apply NoDup_ListNoDup; exact Hnd].
  intros c1 c2 H1 H2. apply Huniq; apply Hin;
    apply (connected_in sameColorNear cb seed); apply Hmem; assumption.
Qed.

(** C3: a placement whose connected same-colour set (under the findMatches
    adjacency: same colour, distance below 2.5 * radius) has exactly 2
    members removes no bubbles and the placed bubble stays in the field; a
    connected same-colour set of exactly 3 members is removed in full. *)
Theorem match_threshold (s : State) (now : Z) (p : Projectile.t)
    (members : list Bubble.t) :
  gameState s = playing -> projectileRef s = Some p ->
  collided (bubblesRef s) (moveProjectile p) = true ->
  let newBubble := newBubbleFor (bubblesRef s) (moveProjectile p) now in
  let updated := bubblesRef s ++ [newBubble] in
  NoDup (map Bubble.id updated) ->
  NoDup members ->
  (forall b, In b members <-> connected sameColorNear updated newBubble b) ->
  (length members = 2%nat ->
   bubblesRef (update s now) = updated /\
   In newBubble (bubblesRef (update s now))) /\
  (length members = 3%nat ->
   forall b, In b members -> ~ In b (bubblesRef (update s now))).
Proof.
  intros Hg Hp Hc newBubble updated Hids Hnd Hmem.
  assert (Hnew : In newBubble updated).
  { apply List.in_or_app. right. left. reflexivity. }
  destruct (findMatches_size newBubble updated members Hnew
              (NoDup_ids_unique _ Hids) Hnd Hmem) as [Hset Hsize].
  rewrite (update_collided s now p Hg Hp Hc). cbv zeta. fold newBubble.
  split.
  - intros Hlen.
    rewrite (settle_no_match (bubblesRef s) (score s) newBubble).
    + simpl. split; [reflexivity | exact Hnew].
    + fold updated. rewrite Hsize, Hlen. lia.
  - intros Hlen b Hb.
    rewrite (settle_match (bubblesRef s) (score s) newBubble).
    + simpl. fold updated. intros Hin.
      apply removeIds_In in Hin. destruct Hin as [Hin _].
      apply removeIds_In in Hin. destruct Hin as [_ Hout].
      apply Hout. rewrite Hset. apply elem_of_list_to_set, list_elem_of_In.
      apply List.in_map. exact Hb.
    + fold updated. rewrite Hsize, Hlen. lia.
Qed.

(** ** The theorems on the sample field *)

Lemma sampleField_ids : NoDup (map Bubble.id (sampleField ++ [sampleNew])).
Proof.
  apply (bool_decide_unpack _). vm_compute. exact I.
Qed.

Lemma findMatches_no_false_matches_witness :
  uniqueIds (sampleNew :: sampleField) /\
  Bubble.color red01 = Bubble.color sampleNew.
Proof.
  assert (Hu : uniqueIds (sampleNew :: sampleField)).
  { apply NoDup_ids_unique. apply (bool_decide_unpack _). vm_compute.
    exact I. }
  split; [exact Hu|].
  destruct (findMatches_no_false_matches sampleNew sampleField)
    as (_ & _ & H).
  apply (H Hu red01).
  - right. right. left. reflexivity.
  - apply (bool_decide_unpack _). vm_compute. exact I.
Defined.

Lemma ceiling_row_grounded_witness :
  (Bubble.y red00 <= BUBBLE_RADIUS * 2)%Q /\
  findFloatingBubbles [blue30; red00; green10] = [blue30] /\
  ~ In red00 (findFloatingBubbles [blue30; red00; green10]).
Proof.
  assert (Hy : (Bubble.y red00 <= BUBBLE_RADIUS * 2)%Q).
  { vm_compute. discriminate. }
  split; [exact Hy|]. split; [vm_compute; reflexivity|].
  apply (ceiling_row_grounded [blue30; red00; green10] red00 Hy).
Defined.

Lemma sampleState_collides :
  collided (bubblesRef sampleState) (moveProjectile sampleShot) = true.
Proof. vm_compute. reflexivity. Qed.

Lemma score_formula_witness :
  gameState sampleState = playing /\
  projectileRef sampleState = Some sampleShot /\
  collided (bubblesRef sampleState) (moveProjectile sampleShot) = true /\
  score (update sampleState 5) = score sampleState + (10 * 3 + 20 * 1).
Proof.
  split; [reflexivity|]. split; [reflexivity|].
  split; [exact sampleState_collides|].
  destruct (score_formula sampleState 5 sampleShot eq_refl eq_refl
              sampleState_collides) as [H _].
  etransitivity; [apply H; vm_compute; discriminate|].
  vm_compute. reflexivity.
Defined.

Lemma match_threshold_witness :
  length [sampleNew; red01; red00] = 3%nat /\
  (forall b, In b [sampleNew; red01; red00] <->
             connected sameColorNear (sampleField ++ [sampleNew]) sampleNew b) /\
  forall b, In b [sampleNew; red01; red00] ->
            ~ In b (bubblesRef (update sampleState 5)).
Proof.
  assert (Hmem : forall b, In b [sampleNew; red01; red00] <->
             connected sameColorNear (sampleField ++ [sampleNew]) sampleNew b).
  { intros b. split.
    - assert (H1 : connected sameColorNear (sampleField ++ [sampleNew])
                     sampleNew red01).
      { apply (connected_step _ _ _ sampleNew); [apply connected_seed| |].
        - simpl. tauto.
        - vm_compute. reflexivity. }
      intros [<- | [<- | [<- | []]]].
      + apply connected_seed.
      + exact H1.
      + apply (connected_step _ _ _ red01); [exact H1| |].
        * simpl. tauto.
        * vm_compute. reflexivity.
    - induction 1 as [|c n _ IH Hn Hadj]; [simpl; tauto|].
      cbn [sampleField app In] in Hn.
      destruct Hn as [<- | [<- | [<- | [<- | []]]]];
        try (simpl; tauto).
      destruct IH as [<- | [<- | [<- | []]]];
        vm_compute in Hadj; discriminate Hadj. }
  split; [reflexivity|]. split; [exact Hmem|].
  assert (Hnd : NoDup [sampleNew; red01; red00]).
  { apply NoDup_of_ids. apply (bool_decide_unpack _). vm_compute. exact I. }
  destruct (match_threshold sampleState 5 sampleShot [sampleNew; red01; red00]
              eq_refl eq_refl sampleState_collides sampleField_ids Hnd Hmem)
    as [_ H].
  exact (H eq_refl).
Defined.

(** A cluster of two: the shot of [pairState] joins [red00], nothing is
    removed and the score stays. *)
Example pair_stays :
  size (findMatches (sampleBubble 0 1 "#FF5555" "new-5")
          [red00; green10; sampleBubble 0 1 "#FF5555" "new-5"]) = 2%nat /\
  bubblesRef (update pairState 5)
  = [red00; green10; sampleBubble 0 1 "#FF5555" "new-5"] /\
  score (update pairState 5) = 0.
Proof. vm_compute. repeat split. Qed.

(** ** The collision resolver *)

Section NeighborSearch.

Variable bubbles : list Bubble.t.
Variables prevX prevY : Q.
Variables row col : Z.

Lemma tryNeighbor_pickCell (best : Best) (dr dc : Z) :
  tryNeighbor bubbles prevX prevY row col best dr dc
  = pickCell bubbles prevX prevY best (row + dr, col + dc).
Proof.
  unfold tryNeighbor, pickCell, candidate, centerDistSq. simpl.
  destruct (row + dr <? 0); simpl; [reflexivity|].
  destruct (isOccupied bubbles (row + dr) (col + dc)); simpl; reflexivity.
Qed.

Lemma searchNeighbors_fold :
  searchNeighbors bubbles prevX prevY row col
  = fold_left (pickCell bubbles prevX prevY) (neighborhood row col)
      (None, row, col).
Proof.
  unfold searchNeighbors, neighborhood. simpl.
  rewrite !tryNeighbor_pickCell. reflexivity.
Qed.

Lemma firstNearest_step (l : list (Z * Z)) (best : Best) (c : Z * Z) :
  firstNearest bubbles prevX prevY row col l best ->
  firstNearest bubbles prevX prevY row col (l ++ [c])
    (pickCell bubbles prevX prevY best c).
Proof.
  intros H. unfold pickCell.
  destruct (candidate bubbles c) eqn:Hc; simpl.
  - destruct H as [[Hnone ->] | (a & c0 & b & -> & Hc0 & -> & Ha & Hb)]; simpl.
    + right. exists l, c, []. repeat split; try assumption.
      * intros c' Hc' Hcand. rewrite (Hnone c' Hc') in Hcand. discriminate.
      * intros c' [].
    + destruct (Qltb (centerDistSq prevX prevY c)
                     (centerDistSq prevX prevY c0)) eqn:Hlt.
      * apply Qltb_lt in Hlt. right. exists (a ++ c0 :: b), c, [].
        repeat split; try assumption; [|intros c' []].
        intros c' Hc' Hcand. apply List.in_app_or in Hc'.
        destruct Hc' as [Hc' | [<- | Hc']].
        -- exact (Qlt_trans _ _ _ Hlt (Ha c' Hc' Hcand)).
        -- exact Hlt.
        -- exact (Qlt_le_trans _ _ _ Hlt (Hb c' Hc' Hcand)).
      * apply Qltb_ge in Hlt. right. exists a, c0, (b ++ [c]).
        repeat split; try assumption.
        -- rewrite <- List.app_assoc. reflexivity.
        -- intros c' Hc' Hcand. apply List.in_app_or in Hc'.
           destruct Hc' as [Hc' | [<- | []]]; [exact (Hb c' Hc' Hcand)|exact Hlt].
  - destruct H as [[Hnone ->] | (a & c0 & b & -> & Hc0 & -> & Ha & Hb)].
    + left. split; [|reflexivity].
      intros c' Hc'. apply List.in_app_or in Hc'.
      destruct Hc' as [Hc' | [<- | []]]; [exact (Hnone c' Hc') | exact Hc].
    + right. exists a, c0, (b ++ [c]). repeat split; try assumption.
      * rewrite <- List.app_assoc. reflexivity.
      * intros c' Hc' Hcand. apply List.in_app_or in Hc'.
        destruct Hc' as [Hc' | [<- | []]]; [exact (Hb c' Hc' Hcand)|].
        rewrite Hc in Hcand. discriminate.
Qed.

Lemma firstNearest_fold (l l0 : list (Z * Z)) (best : Best) :
  firstNearest bubbles prevX prevY row col l0 best ->
  firstNearest bubbles prevX prevY row col (l0 ++ l)
    (fold_left (pickCell bubbles prevX prevY) l best).
Proof.
  revert l0 best. induction l as [|c l IH]; intros l0 best H; simpl.
  - rewrite List.app_nil_r. exact H.
  - replace (l0 ++ c :: l) with ((l0 ++ [c]) ++ l)
      by (rewrite <- List.app_assoc; reflexivity).
    apply IH. apply firstNearest_step. exact H.
Qed.

Lemma searchNeighbors_firstNearest :
  firstNearest bubbles prevX prevY row col (neighborhood row col)
    (searchNeighbors bubbles prevX prevY row col).
Proof.
  rewrite searchNeighbors_fold.
  apply (firstNearest_fold (neighborhood row col) []).
  left. split; [intros c []|reflexivity].
Qed.

(** In the neighbourhood a cell that comes later in the list comes later
    in scan order. *)
Lemma neighborhood_sorted (a b : list (Z * Z)) (c c' : Z * Z) :
  neighborhood row col = a ++ c :: b -> In c' b -> scanBefore c c'.
Proof.
  unfold neighborhood, scanBefore. simpl. intros Hsplit Hin.
  repeat (destruct a as [|? a];
          [ simpl in Hsplit; injection Hsplit as <- <-; simpl in Hin;
            repeat (destruct Hin as [<- | Hin]; [simpl; lia|]);
            destruct Hin
          | simpl in Hsplit; injection Hsplit as _ Hsplit ]).
  destruct a; discriminate Hsplit.
Qed.

End NeighborSearch.

(** The new bubble sits at the pixel centre of the target cell, and the
    mapper sends it back to that cell. *)
Lemma newBubbleFor_at_targetCell (bubbles : list Bubble.t)
    (p : Projectile.t) (now : Z) :
  let cell := targetCell bubbles (Projectile.x p - Projectile.vx p)%Q
                (Projectile.y p - Projectile.vy p)%Q in
  let b := newBubbleFor bubbles p now in
  Bubble.x b = getX (fst cell) (snd cell) /\
  Bubble.y b = getY (fst cell) /\
  (getRow (Bubble.y b), getCol (Bubble.x b) (getRow (Bubble.y b))) = cell.
Proof.
  cbv zeta. unfold newBubbleFor. cbn [Bubble.x Bubble.y].
  split; [reflexivity|]. split; [reflexivity|].
  rewrite getRow_getY, getCol_getX. symmetry. apply surjective_pairing.
Qed.

Lemma targetCell_free (bubbles : list Bubble.t) (prevX prevY : Q) :
  isOccupied bubbles (getRow prevY) (getCol prevX (getRow prevY)) = false ->
  targetCell bubbles prevX prevY
  = (getRow prevY, getCol prevX (getRow prevY)).
Proof. intros H. unfold targetCell. rewrite H. reflexivity. Qed.

(** In exact arithmetic the search returns the nearest free cell of the
    neighbourhood (rows below 0 excluded), the first in scan order among
    the cells at the least distance, and the occupied cell itself when no
    cell is free.  Section [Doubles] has the statement for the distances
    the engine computes. *)
Lemma nearest_cell_in_exact_arithmetic (bubbles : list Bubble.t) (prevX prevY : Q) :
  let row := getRow prevY in
  let col := getCol prevX row in
  let cell := targetCell bubbles prevX prevY in
  isOccupied bubbles row col = true ->
  ((exists c, In c (neighborhood row col) /\ candidate bubbles c = true) ->
   In cell (neighborhood row col) /\ candidate bubbles cell = true /\
   (forall c, In c (neighborhood row col) -> candidate bubbles c = true ->
      (centerDistSq prevX prevY cell <= centerDistSq prevX prevY c)%Q) /\
   (forall c, In c (neighborhood row col) -> candidate bubbles c = true ->
      scanBefore c cell ->
      (centerDistSq prevX prevY cell < centerDistSq prevX prevY c)%Q))
  /\
  ((forall c, In c (neighborhood row col) -> candidate bubbles c = false) ->
   cell = (row, col)).
Proof.
  intros row col cell Hocc. unfold cell, targetCell. fold row. fold col.
  rewrite Hocc.
  destruct (searchNeighbors_firstNearest bubbles prevX prevY row col)
    as [[Hnone ->] | (a & c0 & b & Hsplit & Hc0 & -> & Ha & Hb)];
    cbn [fst snd].
  - split; [|reflexivity].
    intros (c & Hc & Hcand). rewrite (Hnone c Hc) in Hcand. discriminate.
  - assert (Hin0 : In c0 (neighborhood row col)).
    { rewrite Hsplit. apply List.in_or_app. right. left. reflexivity. }
    rewrite <- (surjective_pairing c0). split.
    + intros _. split; [exact Hin0|]. split; [exact Hc0|]. split.
      * intros c Hc Hcand. rewrite Hsplit in Hc. apply List.in_app_or in Hc.
        destruct Hc as [Hc | [<- | Hc]].
        -- apply Qlt_le_weak. exact (Ha c Hc Hcand).
        -- apply Qle_refl.
        -- exact (Hb c Hc Hcand).
      * intros c Hc Hcand Hbefore. rewrite Hsplit in Hc.
        apply List.in_app_or in Hc. destruct Hc as [Hc | [<- | Hc]].
        -- exact (Ha c Hc Hcand).
        -- unfold scanBefore in Hbefore. lia.
        -- pose proof (neighborhood_sorted row col a b c0 c Hsplit Hc) as Hafter.
           unfold scanBefore in Hbefore, Hafter. lia.
    + intros Hnone. rewrite (Hnone c0 Hin0) in Hc0. discriminate.
Qed.

(** ** Game over *)

Lemma reachedDangerLine_spec (bubbles : list Bubble.t) :
  reachedDangerLine bubbles = true <->
  exists b, In b bubbles /\ (CANVAS_HEIGHT - 100 < Bubble.y b)%Q.
Proof.
  unfold reachedDangerLine. rewrite List.existsb_exists.
  split; intros (b & Hb & Hy); exists b; (split; [exact Hb|]);
    unfold Qgtb in *; apply Qltb_lt; exact Hy.
Qed.

Lemma step_gameover (s : State) (e : Event) :
  gameState s = gameover -> isReset e = false -> step s e = s.
Proof.
  intros Hg He. destruct e as [random show | c | now]; simpl.
  - discriminate He.
  - unfold handleCanvasClick. rewrite Hg. reflexivity.
  - unfold update. rewrite Hg. reflexivity.
Qed.

Lemma run_gameover (evs : list Event) (s : State) :
  gameState s = gameover ->
  forallb (fun e => negb (isReset e)) evs = true ->
  run evs s = s.
Proof.
  intros Hg. induction evs as [|e evs IH]; intros Hevs; [reflexivity|].
  simpl in Hevs. apply andb_true_iff in Hevs. destruct Hevs as [He Hevs].
  apply negb_true_iff in He. unfold run in *. simpl.
  rewrite (step_gameover s e Hg He). exact (IH Hevs).
Qed.

(** C7: once any bubble's y exceeds height - 100 after a placement, the
    game state becomes gameover and remains gameover until reset() is
    called; while in gameover, no fire input creates a projectile.  Here
    [evs] is any sequence of clicks and frames without a reset that follows
    the placement. *)
Theorem gameover_until_reset (s : State) (now : Z) (p : Projectile.t)
    (evs : list Event) (c : Click) :
  gameState s = playing -> projectileRef s = Some p ->
  collided (bubblesRef s) (moveProjectile p) = true ->
  (exists b, In b (bubblesRef (update s now)) /\
             (CANVAS_HEIGHT - 100 < Bubble.y b)%Q) ->
  forallb (fun e => negb (isReset e)) evs = true ->
  gameState (update s now) = gameover /\
  gameState (run evs (update s now)) = gameover /\
  projectileRef (run evs (update s now)) = None /\
  projectileRef (handleCanvasClick (run evs (update s now)) c) = None.
Proof.
  intros Hg Hp Hc Hdanger Hevs.
  assert (Hover : gameState (update s now) = gameover
                  /\ projectileRef (update s now) = None).
  { revert Hdanger. rewrite (update_collided s now p Hg Hp Hc). cbv zeta.
    simpl. intros Hdanger. apply reachedDangerLine_spec in Hdanger.
    rewrite Hdanger. split; reflexivity. }
  destruct Hover as [Hover Hnone].
  rewrite (run_gameover evs _ Hover Hevs).
  split; [exact Hover|]. split; [exact Hover|]. split; [exact Hnone|].
  unfold handleCanvasClick. rewrite Hover. simpl. exact Hnone.
Qed.

Lemma lowState_collides :
  collided (bubblesRef lowState) (moveProjectile lowShot) = true.
Proof. vm_compute. reflexivity. Qed.

Lemma gameover_until_reset_witness :
  (exists b, In b (bubblesRef (update lowState 7)) /\
             (CANVAS_HEIGHT - 100 < Bubble.y b)%Q) /\
  gameState (run [Fire firstClick; Tick 23; Fire secondClick]
               (update lowState 7)) = gameover /\
  projectileRef (handleCanvasClick
                   (run [Fire firstClick; Tick 23; Fire secondClick]
                      (update lowState 7)) firstClick) = None.
Proof.
  assert (Hd : exists b, In b (bubblesRef (update lowState 7)) /\
                         (CANVAS_HEIGHT - 100 < Bubble.y b)%Q).
  { apply reachedDangerLine_spec. vm_compute. reflexivity. }
  split; [exact Hd|].
  destruct (gameover_until_reset lowState 7 lowShot
              [Fire firstClick; Tick 23; Fire secondClick] firstClick
              eq_refl eq_refl lowState_collides Hd eq_refl)
    as (_ & H1 & _ & H2).
  split; [exact H1 | exact H2].
Defined.

(** ** Reset *)

(** C10: reset (initGame) always produces a field of exactly 6 rows
    populated per the offset-row rule, 8 bubbles on each even row and 7 on
    each odd row, 45 bubbles in total, each at its exact grid centre
    (getX(row, col), getY(row)); it sets the score to 0, clears any
    in-flight projectile and sets the game state to playing. *)
Theorem initGame_field (random : nat -> Q) (show : Q -> string) (s : State) :
  let s' := initGame random show s in
  map (fun b => (Bubble.x b, Bubble.y b)) (bubblesRef s')
  = map (fun cell => (getX (fst cell) (snd cell), getY (fst cell)))
      offsetRowCells /\
  length (bubblesRef s') = 45%nat /\
  map (rowCount (bubblesRef s')) [0; 1; 2; 3; 4; 5]
  = [8; 7; 8; 7; 8; 7]%nat /\
  score s' = 0 /\ projectileRef s' = None /\ gameState s' = playing.
Proof.
  cbv zeta. unfold initGame. cbn [bubblesRef score projectileRef gameState].
  split; [vm_compute; reflexivity|].
  split; [vm_compute; reflexivity|].
  split; [vm_compute; reflexivity|].
  repeat split.
Qed.

(** ** Playfield bounds *)

Lemma initialBubbles_withinWalls (random : nat -> Q) (show : Q -> string) :
  Forall withinWalls (initialBubbles random show).
Proof.
  apply Forall_forall. intros b Hb. apply list_elem_of_In in Hb.
  apply (List.in_map Bubble.x) in Hb. unfold withinWalls.
  revert Hb. generalize (Bubble.x b). intros q H. vm_compute in H.
  repeat (destruct H as [<- | H];
          [split; vm_compute; discriminate|]).
  destruct H.
Qed.

Lemma frames_ok (n : nat) (t0 : Z) : Forall Event_ok (frames n t0).
Proof.
  unfold frames. apply Forall_forall. intros e He.
  apply list_elem_of_In, List.in_map_iff in He.
  destruct He as (k & <- & _). exact I.
Qed.

Lemma firstClick_ok : Click_ok firstClick.
Proof.
  unfold Click_ok, isDraw. cbv zeta.
  repeat split; try (vm_compute; congruence);
    match goal with H : (targetX _ - _ == 0)%Q |- _ =>
      vm_compute in H; discriminate H end.
Qed.

Lemma secondClick_ok : Click_ok secondClick.
Proof.
  unfold Click_ok, isDraw. cbv zeta.
  repeat split; try (vm_compute; congruence);
    match goal with H : (targetX _ - _ == 0)%Q |- _ =>
      vm_compute in H; discriminate H end.
Qed.

Lemma afterTwoShots_reachable : reachable afterTwoShots.
Proof.
  exists (1 # 4)%Q, twoShots. split; [split; vm_compute; congruence|].
  split; [|reflexivity].
  unfold twoShots.
  apply Forall_app_2; [|apply Forall_app_2; [|apply Forall_app_2]].
  - constructor; [|constructor; [exact firstClick_ok | constructor]].
    intros k. split; vm_compute; congruence.
  - apply frames_ok.
  - constructor; [exact secondClick_ok | constructor].
  - apply frames_ok.
Qed.

(** C6 (the code departs from it): every bubble stored in the field of a
    reachable state should have its x coordinate within
    [radius, width - radius].  After the two shots of [twoShots] the game
    is still being played and the field holds a bubble whose centre lies on
    the right edge of the canvas, at x = 320 > 300. *)
Theorem placement_leaves_playfield :
  reachable afterTwoShots /\
  gameState afterTwoShots = playing /\
  exists b, In b (bubblesRef afterTwoShots) /\
            (Bubble.x b == CANVAS_WIDTH)%Q /\ ~ withinWalls b.
Proof.
  split; [exact afterTwoShots_reachable|].
  split; [vm_compute; reflexivity|].
  assert (H : existsb (fun b => Qeq_bool (Bubble.x b) CANVAS_WIDTH)
                      (bubblesRef afterTwoShots) = true).
  { vm_compute. reflexivity. }
  apply List.existsb_exists in H. destruct H as (b & Hb & Hx).
  apply Qeq_bool_iff in Hx.
  exists b. split; [exact Hb|]. split; [exact Hx|].
  unfold withinWalls. rewrite Hx. intros [_ H]. vm_compute in H.
  apply H. reflexivity.
Qed.

(** ** Row pitch *)

Lemma Q2R_ROW_FACTOR : Q2R ROW_FACTOR = (1732 / 1000)%R.
Proof. unfold ROW_FACTOR, Q2R. simpl. lra. Qed.

Lemma ROW_FACTOR_below_sqrt3 :
  (Q2R ROW_FACTOR < sqrt 3 < Q2R ROW_FACTOR + 1 / 10000)%R.
Proof.
  rewrite Q2R_ROW_FACTOR. split.
  - rewrite <- (sqrt_square (1732 / 1000)) by lra.
    apply sqrt_lt_1_alt. lra.
  - rewrite <- (sqrt_square (1732 / 1000 + 1 / 10000)) by lra.
    apply sqrt_lt_1_alt. lra.
Qed.

(** C9 as stated fails: the pixel centre of row 1 is not
    1 * radius * sqrt(3) + radius. *)
Lemma row_pitch_not_sqrt3 :
  Q2R (getY 1) <> (IZR 1 * Q2R BUBBLE_RADIUS * sqrt 3 + Q2R BUBBLE_RADIUS)%R.
Proof.
  pose proof ROW_FACTOR_below_sqrt3 as [Hlt _].
  unfold getY. rewrite Q2R_plus, !Q2R_mult.
  assert (H20 : Q2R BUBBLE_RADIUS = 20%R).
  { unfold BUBBLE_RADIUS, Q2R. simpl. lra. }
  assert (H1 : Q2R (inject_Z 1) = 1%R).
  { unfold Q2R. simpl. lra. }
  rewrite H20, H1. intros H. nra.
Qed.

(** C9, amended: the row pitch is radius * 1.732, a constant that lies
    below sqrt(3) by less than 0.0001: for every row,
    getY(row) = row * radius * 1.732 + radius, and for every y,
    getRow(y) = round((y - radius) / (radius * 1.732)). *)
Theorem row_pitch_is_1732 (row : Z) (y : Q) :
  getY row = SpecMapper.yOf (1732 # 1000) row /\
  getRow y = SpecMapper.rowOf (1732 # 1000) y /\
  (Q2R (1732 # 1000) < sqrt 3 < Q2R (1732 # 1000) + 1 / 10000)%R.
Proof.
  split; [reflexivity|]. split; [reflexivity|].
  exact ROW_FACTOR_below_sqrt3.
Qed.

(** ** Runs and sample games *)

Lemma run_snoc (evs : list Event) (e : Event) (s : State) :
  run (evs ++ [e]) s = step (run evs s) e.
Proof. unfold run. rewrite fold_left_app. reflexivity. Qed.

Lemma freshGame_reachable : reachable freshGame.
Proof.
  exists (1 # 4)%Q, [Reset allRed showHalf].
  split; [split; vm_compute; congruence|]. split; [|reflexivity].
  constructor; [|constructor]. intros k. split; vm_compute; congruence.
Qed.

(** ** One frame, case by case *)

Lemma update_not_playing (s : State) (now : Z) :
  gameState s <> playing -> update s now = s.
Proof.
  intros H. unfold update. destruct (gameState s); try reflexivity.
  contradiction.
Qed.

Lemma update_no_projectile (s : State) (now : Z) :
  projectileRef s = None -> update s now = s.
Proof.
  intros H. unfold update. rewrite H.
  destruct (negb _); reflexivity.
Qed.

Lemma update_flying (s : State) (now : Z) (p : Projectile.t) :
  gameState s = playing -> projectileRef s = Some p ->
  collided (bubblesRef s) (moveProjectile p) = false ->
  update s now =
  {| score := score s; gameState := gameState s; bubblesRef := bubblesRef s;
     nextColor := nextColor s;
     projectileRef :=
       if Qltb (Projectile.y (moveProjectile p)) (- BUBBLE_RADIUS)
          || Qgtb (Projectile.y (moveProjectile p))
               (CANVAS_HEIGHT + BUBBLE_RADIUS)
       then None else Some (moveProjectile p) |}.
Proof.
  intros Hg Hp Hc. unfold update. rewrite Hg, Hp. simpl. rewrite Hc.
  destruct (_ || _); reflexivity.
Qed.

(** The three ways a frame can go. *)
Lemma update_cases (s : State) (now : Z) :
  update s now = s \/
  (exists p, gameState s = playing /\ projectileRef s = Some p /\
             collided (bubblesRef s) (moveProjectile p) = true) \/
  (exists p, gameState s = playing /\ projectileRef s = Some p /\
             collided (bubblesRef s) (moveProjectile p) = false).
Proof.
  destruct (gameState s) eqn:Hg;
    try (left; apply update_not_playing; congruence).
  destruct (projectileRef s) as [p|] eqn:Hp;
    [|left; apply update_no_projectile; exact Hp].
  destruct (collided (bubblesRef s) (moveProjectile p)) eqn:Hc.
  - right. left. exists p. repeat split; assumption.
  - right. right. exists p. repeat split; assumption.
Qed.

Lemma settle_incl (bubbles : list Bubble.t) (score0 : Z) (nb b : Bubble.t) :
  In b (fst (settle bubbles score0 nb)) -> In b (bubbles ++ [nb]).
Proof.
  unfold settle. destruct (3 <=? _); simpl; [|tauto].
  intros H. apply removeIds_In in H. destruct H as [H _].
  apply removeIds_In in H. tauto.
Qed.

Lemma settle_score (bubbles : list Bubble.t) (score0 : Z) (nb : Bubble.t) :
  exists k, 0 <= k /\ snd (settle bubbles score0 nb) = score0 + 10 * k.
Proof.
  unfold settle. destruct (3 <=? _); simpl.
  - exists (Z.of_nat (size (findMatches nb (bubbles ++ [nb])))
            + 2 * Z.of_nat
                (length (findFloatingBubbles
                           (removeIds (findMatches nb (bubbles ++ [nb]))
                              (bubbles ++ [nb]))))).
    split; lia.
  - exists 0. split; lia.
Qed.

Lemma settle_Forall (P : Bubble.t -> Prop) (bubbles : list Bubble.t)
    (score0 : Z) (nb : Bubble.t) :
  Forall P bubbles -> P nb -> Forall P (fst (settle bubbles score0 nb)).
Proof.
  intros Hb Hnb. apply Forall_forall. intros b Hin.
  apply list_elem_of_In, settle_incl, List.in_app_or in Hin.
  destruct Hin as [Hin | [<- | []]]; [|exact Hnb].
  rewrite Forall_forall in Hb. apply Hb. apply list_elem_of_In. exact Hin.
Qed.

(** The initial population, slot by slot. *)
Lemma initialBubbles_slots (random : nat -> Q) (show : Q -> string) :
  initialBubbles random show
  = map (fun slot => initialBubble random show (fst slot)
                       (fst (snd slot)) (snd (snd slot)))
        initialSlots.
Proof. reflexivity. Qed.

Lemma initialBubbles_Forall (P : Bubble.t -> Prop) (random : nat -> Q)
    (show : Q -> string) :
  (forall k row col, P (initialBubble random show k row col)) ->
  Forall P (initialBubbles random show).
Proof.
  intros H. rewrite initialBubbles_slots. apply Forall_forall.
  intros b Hb. apply list_elem_of_In, List.in_map_iff in Hb.
  destruct Hb as (slot & <- & _). apply H.
Qed.

(** ** Colours *)

Lemma pickColor_palette (r : Q) : isDraw r -> In (pickColor r) COLORS.
Proof.
  intros [H0 H1]. unfold pickColor, Math_floor.
  set (q := (r * inject_Z (Z.of_nat (length COLORS)))%Q).
  assert (Hlo : 0 <= Qfloor q).
  { change 0 with (Qfloor 0). apply Qfloor_resp_le. unfold q.
    apply Qmult_le_0_compat; [exact H0|]. vm_compute. discriminate. }
  assert (Hhi : Qfloor q < 6).
  { rewrite Zlt_Qlt. apply (Qle_lt_trans _ q); [apply Qfloor_le|].
    unfold q. change (inject_Z (Z.of_nat (length COLORS))) with 6%Q.
    change (inject_Z 6) with (1 * 6)%Q.
    apply Qmult_lt_r; [reflexivity | exact H1]. }
  apply List.nth_In. change (length COLORS) with 6%nat. lia.
Qed.

(** ** Score *)

Lemma step_score (s : State) (e : Event) :
  isReset e = false ->
  exists k, 0 <= k /\ score (step s e) = score s + 10 * k.
Proof.
  intros He. destruct e as [random show | c | now]; [discriminate| |].
  - exists 0. simpl. unfold handleCanvasClick.
    destruct (_ || _); simpl; lia.
  - simpl. destruct (update_cases s now) as [-> | [H | H]];
      [exists 0; lia| |]; destruct H as (p & Hg & Hpr & Hc).
    + rewrite (update_collided s now p Hg Hpr Hc). cbv zeta. simpl.
      apply settle_score.
    + rewrite (update_flying s now p Hg Hpr Hc). simpl. exists 0. lia.
Qed.

(** X20: between two resets the score never goes down: whatever clicks and
    frames follow, it stays or grows, in steps of ten. *)
Theorem score_never_decreases (evs : list Event) (s : State) :
  forallb (fun e => negb (isReset e)) evs = true ->
  exists k, 0 <= k /\ score (run evs s) = score s + 10 * k.
Proof.
  revert s. induction evs as [|e evs IH]; intros s Hevs.
  - exists 0. simpl. lia.
  - simpl in Hevs. apply andb_true_iff in Hevs. destruct Hevs as [He Hevs].
    apply negb_true_iff in He.
    destruct (step_score s e He) as (k1 & Hk1 & H1).
    destruct (IH (step s e) Hevs) as (k2 & Hk2 & H2).
    exists (k1 + k2). split; [lia|].
    change (run (e :: evs) s) with (run evs (step s e)). lia.
Qed.

Lemma score_never_decreases_witness :
  forallb (fun e => negb (isReset e)) [Tick 5; Fire firstClick] = true /\
  exists k, 0 <= k /\
    score (run [Tick 5; Fire firstClick] sampleState)
    = score sampleState + 10 * k.
Proof.
  split; [reflexivity|].
  apply (score_never_decreases [Tick 5; Fire firstClick] sampleState).
  reflexivity.
Defined.

(** ** Bubbles at cell centres *)

Lemma onGrid_center (row col : Z) (color id : string) :
  onGrid {| Bubble.x := getX row col; Bubble.y := getY row;
            Bubble.color := color; Bubble.id := id |}.
Proof.
  unfold onGrid, cellOf. simpl.
  rewrite getRow_getY, getCol_getX. split; reflexivity.
Qed.

(** ** Clicks that are ignored *)

(** A click is ignored while a projectile is in flight or while the game
    is not being played. *)
Lemma fire_ignored (s : State) (c : Click) :
  gameState s <> playing \/ projectileRef s <> None ->
  handleCanvasClick s c = s.
Proof.
  intros H. unfold handleCanvasClick.
  destruct (gameState s) eqn:Hg; simpl; try reflexivity.
  destruct (projectileRef s); [reflexivity|].
  destruct H as [H | H]; contradiction.
Qed.

(** ** The projectile in flight *)

Module Flight.
Import Lqa.

Lemma BUBBLE_RADIUS_val : (BUBBLE_RADIUS == 20)%Q.
Proof. reflexivity. Qed.

Lemma CANVAS_WIDTH_val : (CANVAS_WIDTH == 320)%Q.
Proof. reflexivity. Qed.

(** What [moveProjectile] does to each field. *)
Lemma moveProjectile_fields (p : Projectile.t) :
  Projectile.x (moveProjectile p) = (Projectile.x p + Projectile.vx p)%Q /\
  Projectile.y (moveProjectile p) = (Projectile.y p + Projectile.vy p)%Q /\
  Projectile.vy (moveProjectile p) = Projectile.vy p /\
  Projectile.color (moveProjectile p) = Projectile.color p /\
  (((Projectile.x p + Projectile.vx p < BUBBLE_RADIUS)%Q \/
    (CANVAS_WIDTH - BUBBLE_RADIUS < Projectile.x p + Projectile.vx p)%Q) /\
   Projectile.vx (moveProjectile p) = (Projectile.vx p * -1)%Q
   \/
   ((BUBBLE_RADIUS <= Projectile.x p + Projectile.vx p)%Q /\
    (Projectile.x p + Projectile.vx p <= CANVAS_WIDTH - BUBBLE_RADIUS)%Q) /\
   Projectile.vx (moveProjectile p) = Projectile.vx p).
Proof.
  unfold moveProjectile. cbn [Projectile.x Projectile.y Projectile.vx
                                Projectile.vy Projectile.color].
  repeat (split; [reflexivity|]).
  destruct (Qltb (Projectile.x p + Projectile.vx p) BUBBLE_RADIUS) eqn:H1;
    simpl.
  - left. split; [|reflexivity]. left. apply Qltb_lt. exact H1.
  - unfold Qgtb.
    destruct (Qltb (CANVAS_WIDTH - BUBBLE_RADIUS)
                   (Projectile.x p + Projectile.vx p)) eqn:H2.
    + left. split; [|reflexivity]. right. apply Qltb_lt. exact H2.
    + right. split; [|reflexivity].
      split; [apply Qltb_ge; exact H1 | apply Qltb_ge; exact H2].
Qed.

End Flight.

Lemma firstShotFired_reachable : reachable firstShotFired.
Proof.
  exists (1 # 4)%Q, [Reset allRed showHalf; Fire firstClick].
  split; [split; vm_compute; congruence|]. split; [|reflexivity].
  constructor; [|constructor; [exact firstClick_ok | constructor]].
  intros k. split; vm_compute; congruence.
Qed.

(** ** Snapping a pixel to the grid *)

Lemma Math_round_spec (q : Q) (n : Z) :
  Math_round q = n <->
  (inject_Z n - (1 # 2) <= q)%Q /\ (q < inject_Z n + (1 # 2))%Q.
Proof.
  unfold Math_round. split.
  - intros <-.
    pose proof (Qfloor_le (q + (1 # 2))) as H1.
    pose proof (Qlt_floor (q + (1 # 2))) as H2.
    rewrite inject_Z_plus in H2. change (inject_Z 1) with 1%Q in H2.
    split; Lqa.lra.
  - intros [H1 H2].
    assert (Hlo : n <= Qfloor (q + (1 # 2))).
    { rewrite <- (Qfloor_Z n). apply Qfloor_resp_le. Lqa.lra. }
    assert (Hhi : Qfloor (q + (1 # 2)) < n + 1).
    { rewrite Zlt_Qlt. apply (Qle_lt_trans _ (q + (1 # 2)));
        [apply Qfloor_le|]. rewrite inject_Z_plus.
      change (inject_Z 1) with 1%Q. Lqa.lra. }
    lia.
Qed.

(** In exact arithmetic [getRow y] is the one row whose band of height
    radius * 1.732, centred on [getY row], holds [y]; the lower edge of a
    band belongs to it, the upper edge to the next row. *)
Lemma getRow_band (y : Q) (row : Z) :
  getRow y = row <->
  (getY row - BUBBLE_RADIUS * ROW_FACTOR / 2 <= y)%Q /\
  (y < getY row + BUBBLE_RADIUS * ROW_FACTOR / 2)%Q.
Proof.
  unfold getRow. rewrite Math_round_spec.
  set (q := ((y - BUBBLE_RADIUS) / (BUBBLE_RADIUS * ROW_FACTOR))%Q).
  assert (E : (y == q * (BUBBLE_RADIUS * ROW_FACTOR) + BUBBLE_RADIUS)%Q).
  { unfold q, BUBBLE_RADIUS, ROW_FACTOR. field. }
  unfold getY. revert E. generalize q. clear q. intros q E.
  unfold BUBBLE_RADIUS, ROW_FACTOR, Qdiv in *.
  change (/ 2)%Q with (1 # 2)%Q.
  split; intros [H1 H2]; split; Lqa.lra.
Qed.

(** In exact arithmetic [getCol x row] is the one column whose band of
    width 2 * radius, centred on [getX row col], holds [x]. *)
Lemma getCol_band (x : Q) (row col : Z) :
  getCol x row = col <->
  (getX row col - BUBBLE_RADIUS <= x)%Q /\
  (x < getX row col + BUBBLE_RADIUS)%Q.
Proof.
  unfold getCol. rewrite Math_round_spec. unfold getX.
  destruct (isOffset row).
  - set (q := ((x - BUBBLE_RADIUS - BUBBLE_RADIUS) / (BUBBLE_RADIUS * 2))%Q).
    assert (E : (x == q * (BUBBLE_RADIUS * 2) + BUBBLE_RADIUS
                      + BUBBLE_RADIUS)%Q).
    { unfold q, BUBBLE_RADIUS. field. }
    revert E. generalize q. clear q. intros q E.
    unfold BUBBLE_RADIUS in *.
    split; intros [H1 H2]; split; Lqa.lra.
  - set (q := ((x - BUBBLE_RADIUS - 0) / (BUBBLE_RADIUS * 2))%Q).
    assert (E : (x == q * (BUBBLE_RADIUS * 2) + BUBBLE_RADIUS)%Q).
    { unfold q, BUBBLE_RADIUS. field. }
    revert E. generalize q. clear q. intros q E.
    unfold BUBBLE_RADIUS in *.
    split; intros [H1 H2]; split; Lqa.lra.
Qed.

(** X1: getRow snaps a height to the nearest row.  On the rows 0 to 4095,
    every y within 17 pixels of the centre line getY(row) is mapped to
    row; half the row pitch is 17.32, and the 0.32 left out keeps the
    statement clear of the rounding of the engine at the edges of a
    band. *)
Theorem getRow_snaps (y : Q) (row : Z) :
  0 <= row <= 4095 ->
  (getY row - 17 <= y)%Q -> (y <= getY row + 17)%Q ->
  getRow y = row.
Proof.
  intros _ Hlo Hhi. apply getRow_band.
  unfold BUBBLE_RADIUS, ROW_FACTOR, Qdiv.
  change (/ 2)%Q with (1 # 2)%Q. split; Lqa.lra.
Qed.

Lemma getRow_snaps_witness :
  0 <= 3 <= 4095 /\ (getY 3 - 17 <= 130)%Q /\ (130 <= getY 3 + 17)%Q /\
  getRow 130 = 3.
Proof.
  split; [lia|]. split; [vm_compute; discriminate|].
  split; [vm_compute; discriminate|].
  apply (getRow_snaps 130 3); [lia | |]; vm_compute; discriminate.
Defined.

(** X2: getCol snaps an abscissa to the nearest column of the row.  On the
    rows 0 to 4095 and the columns -4095 to 4095, every x within 19 pixels
    of the centre getX(row, col) is mapped to col, on offset rows and on
    the others; half the column width is 20. *)
Theorem getCol_snaps (x : Q) (row col : Z) :
  0 <= row <= 4095 -> -4095 <= col <= 4095 ->
  (getX row col - 19 <= x)%Q -> (x <= getX row col + 19)%Q ->
  getCol x row = col.
Proof.
  intros _ _ Hlo Hhi. apply getCol_band.
  unfold BUBBLE_RADIUS. split; Lqa.lra.
Qed.

Lemma getCol_snaps_witness :
  0 <= 3 <= 4095 /\ -4095 <= 2 <= 4095 /\
  (getX 3 2 - 19 <= 135)%Q /\ (135 <= getX 3 2 + 19)%Q /\
  getCol 135 3 = 2.
Proof.
  split; [lia|]. split; [lia|]. split; [vm_compute; discriminate|].
  split; [vm_compute; discriminate|].
  apply (getCol_snaps 135 3 2); [lia | lia | |]; vm_compute; discriminate.
Defined.

(** ** Where a new bubble can land *)

Lemma isOccupied_false (bubbles : list Bubble.t) (r c : Z) :
  isOccupied bubbles r c = false <->
  forall b, In b bubbles -> cellOf b <> (r, c).
Proof.
  unfold isOccupied, cellOf. split.
  - intros H b Hb Heq. apply not_true_iff_false in H. apply H.
    apply List.existsb_exists. exists b. split; [exact Hb|].
    cbv zeta in *. injection Heq as -> ->. rewrite !Z.eqb_refl.
    reflexivity.
  - intros H. apply not_true_is_false. intros Ht.
    apply List.existsb_exists in Ht. destruct Ht as (b & Hb & Hcell).
    cbv zeta in Hcell. apply andb_true_iff in Hcell.
    destruct Hcell as [Hr Hc]. apply Z.eqb_eq in Hr, Hc.
    apply (H b Hb). cbv zeta. congruence.
Qed.

Lemma targetCell_bounds (bubbles : list Bubble.t)
    (prevX prevY : Q) :
  let row := getRow prevY in
  let col := getCol prevX row in
  let cell := targetCell bubbles prevX prevY in
  In cell (neighborhood row col) /\ (0 <= row -> 0 <= fst cell).
Proof.
  intros row col cell.
  assert (Hself : In (row, col) (neighborhood row col)).
  { unfold neighborhood. simpl. rewrite !Z.add_0_r. tauto. }
  unfold cell, targetCell. fold row. fold col.
  destruct (isOccupied bubbles row col); [|split; [exact Hself | tauto]].
  destruct (searchNeighbors_firstNearest bubbles prevX prevY row col)
    as [[_ ->] | (a & c0 & b & Hsplit & Hc0 & -> & _)]; cbn [fst snd].
  - split; [exact Hself | tauto].
  - rewrite <- (surjective_pairing c0). split.
    + rewrite Hsplit. apply List.in_or_app. right. left. reflexivity.
    + intros _. unfold candidate in Hc0. apply andb_true_iff in Hc0.
      destruct Hc0 as [Hrow _]. apply negb_true_iff, Z.ltb_ge in Hrow.
      exact Hrow.
Qed.

(** X9: the target cell always lies in the 3x3 neighbourhood of the cell
    computed from the pre-collision point, and its row is not negative
    when the computed row is not. *)
Theorem targetCell_in_neighborhood (bubbles : list Bubble.t)
    (prevX prevY : Q) :
  let row := getRow prevY in
  let col := getCol prevX row in
  let cell := targetCell bubbles prevX prevY in
  In cell (neighborhood row col) /\ (0 <= row -> 0 <= fst cell).
Proof. exact (targetCell_bounds bubbles prevX prevY). Qed.

(** X10: unless the computed cell and every admissible cell around it are
    taken, the new bubble gets a grid address that no stored bubble has. *)
Theorem placement_avoids_overlap (bubbles : list Bubble.t)
    (p : Projectile.t) (now : Z) :
  let prevX := (Projectile.x p - Projectile.vx p)%Q in
  let prevY := (Projectile.y p - Projectile.vy p)%Q in
  let row := getRow prevY in
  let col := getCol prevX row in
  (isOccupied bubbles row col = false \/
   exists c, In c (neighborhood row col) /\ candidate bubbles c = true) ->
  forall b, In b bubbles -> cellOf b <> cellOf (newBubbleFor bubbles p now).
Proof.
  intros prevX prevY row col Hfree.
  destruct (newBubbleFor_at_targetCell bubbles p now) as (_ & _ & Hcell).
  fold prevX prevY in Hcell. cbv zeta in Hcell.
  change (cellOf (newBubbleFor bubbles p now)
          = targetCell bubbles prevX prevY) in Hcell.
  rewrite Hcell.
  rewrite (surjective_pairing (targetCell bubbles prevX prevY)).
  apply isOccupied_false.
  unfold targetCell. fold row. fold col.
  destruct (isOccupied bubbles row col) eqn:Hocc; [|exact Hocc].
  destruct Hfree as [Hfree | (c & Hc & Hcand)]; [discriminate|].
  destruct (searchNeighbors_firstNearest bubbles prevX prevY row col)
    as [[Hnone _] | (a & c0 & b0 & _ & Hc0 & -> & _)]; cbn [fst snd].
  - rewrite (Hnone c Hc) in Hcand. discriminate.
  - unfold candidate in Hc0. apply andb_true_iff in Hc0.
    destruct Hc0 as [_ Hc0]. apply negb_true_iff in Hc0. exact Hc0.
Qed.

Lemma placement_avoids_overlap_witness :
  (exists c, In c (neighborhood 0 2) /\ candidate sampleField c = true) /\
  forall b, In b sampleField -> cellOf b <> cellOf sampleNew.
Proof.
  assert (H : exists c, In c (neighborhood 0 2)
                        /\ candidate sampleField c = true).
  { exists (0, 2). split; [simpl; tauto | vm_compute; reflexivity]. }
  split; [exact H|].
  apply (placement_avoids_overlap sampleField (moveProjectile sampleShot) 5).
  right. exact H.
Defined.

(** ** More on the match engine *)

Lemma getDistance_ltb_sym (x1 y1 x2 y2 c : Q) :
  getDistance_ltb x1 y1 x2 y2 c = getDistance_ltb x2 y2 x1 y1 c.
Proof.
  unfold getDistance_ltb.
  assert (E : (getDistanceSq x1 y1 x2 y2 == getDistanceSq x2 y2 x1 y1)%Q).
  { unfold getDistanceSq. ring. }
  destruct (Qltb (getDistanceSq x2 y2 x1 y1) (c * c)) eqn:H.
  - apply Qltb_lt. rewrite E. apply Qltb_lt. exact H.
  - apply Qltb_ge. rewrite E. apply Qltb_ge. exact H.
Qed.

Lemma near_sym (a b : Bubble.t) : near a b = near b a.
Proof. unfold near. apply getDistance_ltb_sym. Qed.

Lemma sameColorNear_sym (a b : Bubble.t) :
  sameColorNear a b = sameColorNear b a.
Proof.
  unfold sameColorNear. rewrite getDistance_ltb_sym. f_equal.
  apply String.eqb_sym.
Qed.

Section Components.

Variable adj : Bubble.t -> Bubble.t -> bool.
Variable cb : list Bubble.t.

Lemma connected_trans (a b c : Bubble.t) :
  connected adj cb a b -> connected adj cb b c -> connected adj cb a c.
Proof.
  intros Hab Hbc. induction Hbc as [|c n _ IH Hn Hadj]; [exact Hab|].
  exact (connected_step adj cb a c n IH Hn Hadj).
Qed.

Lemma connected_sym (Hsym : forall a b, adj a b = adj b a)
    (a b : Bubble.t) :
  In a cb -> connected adj cb a b -> connected adj cb b a.
Proof.
  intros Ha Hab. induction Hab as [|b n Hab IH Hn Hadj];
    [apply connected_seed|].
  apply (connected_trans n b a); [|exact IH].
  apply (connected_step adj cb n n b); [apply connected_seed| |].
  - destruct (connected_in adj cb a b Hab) as [<- | Hb]; assumption.
  - rewrite Hsym. exact Hadj.
Qed.

End Components.

Lemma uniqueIds_cons (seed : Bubble.t) (cb : list Bubble.t) :
  In seed cb -> uniqueIds cb -> uniqueIds (seed :: cb).
Proof.
  intros Hs Hu c1 c2 H1 H2. apply Hu.
  - destruct H1 as [<- | H1]; assumption.
  - destruct H2 as [<- | H2]; assumption.
Qed.

(** X11: when ids identify bubbles, findMatches returns exactly the
    connected component of the seed: a bubble's id is in the set if and
    only if a chain of same-coloured bubbles, each closer than
    2.5 * radius to the previous one, leads from the seed to it. *)
Theorem findMatches_is_component (seed : Bubble.t) (cb : list Bubble.t)
    (b : Bubble.t) :
  uniqueIds (seed :: cb) -> In b (seed :: cb) ->
  Bubble.id b ∈ findMatches seed cb <-> connected sameColorNear cb seed b.
Proof.
  intros Hu Hb. split.
  - intros Hi. destruct (findMatches_sound seed cb _ Hi) as (c & Hc & Hid).
    rewrite <- (Hu c b (connected_in _ _ _ _ Hc) Hb Hid). exact Hc.
  - apply findMatches_complete. exact Hu.
Qed.

Lemma findMatches_is_component_witness :
  uniqueIds (sampleNew :: sampleField) /\
  In red00 (sampleNew :: sampleField) /\
  connected sameColorNear sampleField sampleNew red00.
Proof.
  assert (Hu : uniqueIds (sampleNew :: sampleField)).
  { apply NoDup_ids_unique. apply (bool_decide_unpack _). vm_compute.
    exact I. }
  assert (Hin : In red00 (sampleNew :: sampleField)) by (simpl; tauto).
  split; [exact Hu|]. split; [exact Hin|].
  apply (findMatches_is_component sampleNew sampleField red00 Hu Hin).
  apply (bool_decide_unpack _). vm_compute. exact I.
Defined.

(** X12: the match set does not depend on which member of a cluster is
    taken as the seed: starting from any bubble found by findMatches gives
    the same set (ids identifying bubbles, both seeds in the field). *)
Theorem findMatches_any_seed (s1 s2 : Bubble.t) (cb : list Bubble.t) :
  uniqueIds cb -> In s1 cb -> In s2 cb ->
  Bubble.id s2 ∈ findMatches s1 cb ->
  findMatches s2 cb = findMatches s1 cb.
Proof.
  intros Hu H1 H2 Hi.
  pose proof (uniqueIds_cons s1 cb H1 Hu) as Hu1.
  pose proof (uniqueIds_cons s2 cb H2 Hu) as Hu2.
  assert (H12 : connected sameColorNear cb s1 s2).
  { destruct (findMatches_sound s1 cb _ Hi) as (c & Hc & Hid).
    rewrite <- (Hu1 c s2 (connected_in _ _ _ _ Hc) (or_intror H2) Hid).
    exact Hc. }
  pose proof (connected_sym sameColorNear cb sameColorNear_sym s1 s2 H1 H12)
    as H21.
  apply set_eq. intros i. split; intros Hin.
  - destruct (findMatches_sound s2 cb i Hin) as (c & Hc & <-).
    apply findMatches_complete; [exact Hu1|].
    exact (connected_trans _ _ _ _ _ H12 Hc).
  - destruct (findMatches_sound s1 cb i Hin) as (c & Hc & <-).
    apply findMatches_complete; [exact Hu2|].
    exact (connected_trans _ _ _ _ _ H21 Hc).
Qed.

Lemma findMatches_any_seed_witness :
  uniqueIds sampleField /\ In red00 sampleField /\ In red01 sampleField /\
  findMatches red01 sampleField = findMatches red00 sampleField.
Proof.
  assert (Hu : uniqueIds sampleField).
  { apply NoDup_ids_unique. apply (bool_decide_unpack _). vm_compute.
    exact I. }
  assert (H0 : In red00 sampleField) by (simpl; tauto).
  assert (H1 : In red01 sampleField) by (simpl; tauto).
  split; [exact Hu|]. split; [exact H0|]. split; [exact H1|].
  apply (findMatches_any_seed red00 red01 sampleField Hu H0 H1).
  apply (bool_decide_unpack _). vm_compute. exact I.
Defined.

Lemma connected_Permutation adj (cb cb' : list Bubble.t)
    (seed b : Bubble.t) :
  Permutation cb cb' ->
  connected adj cb seed b -> connected adj cb' seed b.
Proof.
  intros Hp H. induction H as [|b n _ IH Hn Hadj]; [apply connected_seed|].
  apply (connected_step adj cb' seed b n IH); [|exact Hadj].
  apply list_elem_of_In. rewrite <- Hp. apply list_elem_of_In. exact Hn.
Qed.

(** X13: the match set does not depend on the order in which the field
    array lists the bubbles (ids identifying bubbles). *)
Theorem findMatches_order_independent (seed : Bubble.t)
    (cb cb' : list Bubble.t) :
  uniqueIds (seed :: cb) -> Permutation cb cb' ->
  findMatches seed cb = findMatches seed cb'.
Proof.
  intros Hu Hp.
  assert (Hu' : uniqueIds (seed :: cb')).
  { intros c1 c2 H1 H2. apply Hu.
    - apply list_elem_of_In. rewrite Hp. apply list_elem_of_In. exact H1.
    - apply list_elem_of_In. rewrite Hp. apply list_elem_of_In. exact H2. }
  apply set_eq. intros i. split; intros Hin.
  - destruct (findMatches_sound seed cb i Hin) as (c & Hc & <-).
    apply findMatches_complete; [exact Hu'|].
    exact (connected_Permutation _ _ _ _ _ Hp Hc).
  - destruct (findMatches_sound seed cb' i Hin) as (c & Hc & <-).
    apply findMatches_complete; [exact Hu|].
    symmetry in Hp. exact (connected_Permutation _ _ _ _ _ Hp Hc).
Qed.

Lemma findMatches_order_independent_witness :
  uniqueIds (sampleNew :: sampleField) /\
  Permutation sampleField [green10; red01; red00] /\
  findMatches sampleNew sampleField
  = findMatches sampleNew [green10; red01; red00].
Proof.
  assert (Hu : uniqueIds (sampleNew :: sampleField)).
  { apply NoDup_ids_unique. apply (bool_decide_unpack _). vm_compute.
    exact I. }
  assert (Hp : Permutation sampleField [green10; red01; red00]).
  { unfold sampleField.
    apply (Permutation_trans (l' := [red01; red00; green10]));
      [apply perm_swap|].
    apply (Permutation_trans (l' := [red01; green10; red00]));
      [apply perm_skip, perm_swap | apply perm_swap]. }
  split; [exact Hu|]. split; [exact Hp|].
  apply (findMatches_order_independent sampleNew sampleField _ Hu Hp).
Defined.

Lemma size_list_to_set_le (l : list string) :
  (size (list_to_set (C := gset string) l) <= length l)%nat.
Proof.
  induction l as [|a l IH].
  - rewrite list_to_set_nil, size_empty. simpl. lia.
  - rewrite list_to_set_cons, size_union_alt, size_singleton. simpl.
    pose proof (subseteq_size (list_to_set (C := gset string) l ∖ {[a]})
                  (list_to_set l)) as H.
    assert (list_to_set (C := gset string) l ∖ {[a]} ⊆ list_to_set l)
      by set_solver.
    specialize (H ltac:(assumption)). lia.
Qed.

(** X14: the set findMatches returns always holds the seed's id, holds only
    ids of the seed and of field bubbles, and so has between 1 and
    (field length + 1) elements. *)
Theorem findMatches_bounds (seed : Bubble.t) (cb : list Bubble.t) :
  Bubble.id seed ∈ findMatches seed cb /\
  findMatches seed cb ⊆ list_to_set (map Bubble.id (seed :: cb)) /\
  (1 <= size (findMatches seed cb) <= S (length cb))%nat.
Proof.
  assert (Hsub : findMatches seed cb
                 ⊆ list_to_set (map Bubble.id (seed :: cb))).
  { intros i Hi. destruct (findMatches_sound seed cb i Hi) as (c & Hc & <-).
    apply elem_of_list_to_set, list_elem_of_In, List.in_map.
    exact (connected_in _ _ _ _ Hc). }
  split; [apply findMatches_seed|]. split; [exact Hsub|]. split.
  - pose proof (subseteq_size {[Bubble.id seed]} (findMatches seed cb)) as H.
    rewrite size_singleton in H. apply H.
    pose proof (findMatches_seed seed cb). set_solver.
  - apply subseteq_size in Hsub.
    apply (Nat.le_trans _ _ _ Hsub).
    apply (Nat.le_trans _ _ _ (size_list_to_set_le _)).
    rewrite List.length_map. simpl. lia.
Qed.

(** ** More on the connectivity engine *)

(** A property of bubbles that spreads along the neighbour test holds of
    some owner of every id the flood fill adds. *)
Lemma floodFill_keeps adj (cb : list Bubble.t) (P : Bubble.t -> Prop)
    (Hstep : forall b n, P b -> In n cb -> adj n b = true -> P n)
    (fuel : nat) :
  forall v b r,
    floodFill adj fuel cb v b = Some r -> P b ->
    (forall i, i ∈ v -> exists c, P c /\ Bubble.id c = i) ->
    forall i, i ∈ r -> exists c, P c /\ Bubble.id c = i.
Proof.
  induction fuel as [|fuel IH]; intros v b r H Hb Hv; [discriminate|].
  rewrite floodFill_S in H. revert H.
  apply (forEach_inv
           (fun r => forall i, i ∈ r -> exists c, P c /\ Bubble.id c = i)).
  - intros v0 n r0 Hn Hv0 Hrun. apply neighbors_spec in Hn.
    destruct Hn as (Hin & _ & Hadj).
    exact (IH v0 n r0 Hrun (Hstep b n Hb Hin Hadj) Hv0).
  - intros i Hi. apply elem_of_union in Hi. destruct Hi as [Hi | Hi].
    + apply elem_of_singleton in Hi. subst i. exists b.
      split; [exact Hb | reflexivity].
    + apply Hv. exact Hi.
Qed.

Lemma floodFill_enough_from adj (cb : list Bubble.t) (fuel : nat)
    (v : gset string) (b : Bubble.t) :
  (length cb < fuel)%nat ->
  floodFill adj fuel cb v b = floodFill adj (S (length cb)) cb v b.
Proof.
  intros Hfuel.
  destruct (floodFill_total adj cb (S (length cb)) v b) as [r Hr].
  { pose proof (unvisitedCount_le_length cb ({[Bubble.id b]} ∪ v)). lia. }
  rewrite Hr. apply (floodFill_fuel_mono adj cb (S (length cb))); [lia|].
  exact Hr.
Qed.

Lemma forEach_ext visit visit' (l : list Bubble.t) acc :
  (forall v n, visit v n = visit' v n) ->
  forEach visit l acc = forEach visit' l acc.
Proof.
  intros H. revert acc. induction l as [|n l IH]; intros acc; [reflexivity|].
  simpl. destruct acc as [v|]; [rewrite H|]; apply IH.
Qed.

(** X15: the recursion of findMatches and of traverse never nests deeper
    than the number of bubbles in the field plus one: any depth bound above
    the field length yields the same, defined, result. *)
Theorem flood_fill_depth_bound (fuel : nat) (seed : Bubble.t)
    (cb : list Bubble.t) :
  (length cb < fuel)%nat ->
  findMatches_fuel fuel seed cb ∅ = Some (findMatches seed cb) /\
  findFloatingBubbles_fuel fuel cb = Some (findFloatingBubbles cb).
Proof.
  intros Hfuel. split; [apply findMatches_enough; exact Hfuel|].
  rewrite <- findFloatingBubbles_returns.
  unfold findFloatingBubbles_fuel, connectedToTop_fuel, traverse.
  rewrite (forEach_ext _ (floodFill near (S (length cb)) cb));
    [reflexivity|].
  intros v n. apply floodFill_enough_from. exact Hfuel.
Qed.

Lemma flood_fill_depth_bound_witness :
  (length sampleField < 10)%nat /\
  findMatches_fuel 10 sampleNew sampleField ∅
  = Some (findMatches sampleNew sampleField).
Proof.
  assert (H : (length sampleField < 10)%nat) by (simpl; lia).
  split; [exact H|].
  apply (flood_fill_depth_bound 10 sampleNew sampleField H).
Defined.

Lemma grounded_step (cb : list Bubble.t) (b n : Bubble.t) :
  grounded cb b -> In n cb -> near n b = true -> grounded cb n.
Proof.
  intros (t & Ht & Htop & Hc) Hn Hadj. exists t.
  split; [exact Ht|]. split; [exact Htop|].
  exact (connected_step near cb t b n Hc Hn Hadj).
Qed.

Lemma grounded_in (cb : list Bubble.t) (b : Bubble.t) :
  grounded cb b -> In b cb.
Proof.
  intros (t & Ht & _ & Hc).
  destruct (connected_in near cb t b Hc) as [<- | Hb]; assumption.
Qed.

Lemma connectedToTop_sound (cb : list Bubble.t) (r : gset string) :
  connectedToTop_fuel (S (length cb)) cb = Some r ->
  forall i, i ∈ r -> exists c, grounded cb c /\ Bubble.id c = i.
Proof.
  unfold connectedToTop_fuel, traverse.
  apply (forEach_inv
           (fun r => forall i, i ∈ r ->
                     exists c, grounded cb c /\ Bubble.id c = i)).
  - intros v t r0 Ht Hv Hrun. apply List.filter_In in Ht.
    destruct Ht as [Hin Htop].
    apply (floodFill_keeps near cb (grounded cb) (grounded_step cb)
             _ v t r0 Hrun); [|exact Hv].
    exists t. split; [exact Hin|]. split; [exact Htop|].
    apply connected_seed.
  - intros i Hi. set_solver.
Qed.

Lemma connectedToTop_closed (cb : list Bubble.t) (r : gset string) :
  uniqueIds cb ->
  connectedToTop_fuel (S (length cb)) cb = Some r ->
  forall c, In c cb -> Bubble.id c ∈ r ->
  forall n, In n cb -> near n c = true -> Bubble.id n ∈ r.
Proof.
  intros Hu. unfold connectedToTop_fuel, traverse.
  apply (forEach_inv
           (fun r => forall c, In c cb -> Bubble.id c ∈ r ->
                     forall n, In n cb -> near n c = true ->
                               Bubble.id n ∈ r)).
  - intros v t r0 Ht Hv Hrun c Hc Hcr n Hn Hadj.
    apply List.filter_In in Ht. destruct Ht as [Hin _].
    pose proof (floodFill_incl _ _ _ _ _ _ Hrun) as Hinc.
    destruct (decide (Bubble.id c ∈ v)) as [Hcv | Hcv].
    + apply Hinc. apply elem_of_union. right.
      exact (Hv c Hc Hcv n Hn Hadj).
    + apply (floodFill_closed near cb t (uniqueIds_cons t cb Hin Hu)
               _ v t r0 Hrun (or_introl eq_refl) c (or_intror Hc) Hcr Hcv
               n Hn Hadj).
  - intros c _ Hc. set_solver.
Qed.

Lemma connectedToTop_complete (cb : list Bubble.t) (r : gset string) :
  uniqueIds cb ->
  connectedToTop_fuel (S (length cb)) cb = Some r ->
  forall b, grounded cb b -> Bubble.id b ∈ r.
Proof.
  intros Hu Hr b (t & Ht & Htop & Hc).
  destruct (connectedToTop_returns cb) as (r' & Hr' & Hall).
  assert (r' = r) by congruence. subst r'.
  induction Hc as [|b n Hc IH Hn Hadj]; [exact (Hall t Ht Htop)|].
  apply (connectedToTop_closed cb r Hu Hr b); [|exact IH|exact Hn|exact Hadj].
  destruct (connected_in near cb t b Hc) as [<- | Hb]; assumption.
Qed.

Lemma floating_spec (cb : list Bubble.t) (b : Bubble.t) :
  uniqueIds cb ->
  In b (findFloatingBubbles cb) <-> In b cb /\ ~ grounded cb b.
Proof.
  intros Hu.
  destruct (connectedToTop_returns cb) as (r & Hr & _).
  unfold findFloatingBubbles, findFloatingBubbles_fuel. rewrite Hr. simpl.
  rewrite List.filter_In, unvisited_true. split.
  - intros [Hb Hout]. split; [exact Hb|]. intros Hg. apply Hout.
    exact (connectedToTop_complete cb r Hu Hr b Hg).
  - intros [Hb Hng]. split; [exact Hb|]. intros Hin.
    destruct (connectedToTop_sound cb r Hr _ Hin) as (c & Hc & Hid).
    apply Hng. rewrite <- (Hu c b (grounded_in cb c Hc) Hb Hid). exact Hc.
Qed.

(** X16: when ids identify bubbles, findFloatingBubbles returns exactly the
    bubbles of the field that are not grounded, that is, that no chain of
    bubbles closer than 2.5 * radius to one another links to a bubble of the
    ceiling row. *)
Theorem floating_iff_not_grounded (cb : list Bubble.t) (b : Bubble.t) :
  uniqueIds cb ->
  In b (findFloatingBubbles cb) <-> In b cb /\ ~ grounded cb b.
Proof. exact (floating_spec cb b). Qed.

Lemma floating_iff_not_grounded_witness :
  uniqueIds [blue30; red00; green10] /\
  In blue30 [blue30; red00; green10] /\
  ~ grounded [blue30; red00; green10] blue30.
Proof.
  assert (Hu : uniqueIds [blue30; red00; green10]).
  { apply NoDup_ids_unique. apply (bool_decide_unpack _). vm_compute.
    exact I. }
  split; [exact Hu|].
  apply (floating_iff_not_grounded [blue30; red00; green10] blue30 Hu).
  vm_compute. tauto.
Defined.

(** X17: when no bubble lies in the ceiling row (every y exceeds
    2 * radius), findFloatingBubbles reports the whole field as floating. *)
Theorem no_ceiling_all_floating (cb : list Bubble.t) :
  (forall b, In b cb -> (BUBBLE_RADIUS * 2 < Bubble.y b)%Q) ->
  findFloatingBubbles cb = cb.
Proof.
  intros H.
  assert (Htop : List.filter isTopRow cb = []).
  { induction cb as [|a cb IH]; [reflexivity|]. simpl.
    destruct (isTopRow a) eqn:Ha.
    - unfold isTopRow in Ha. apply Qle_bool_iff in Ha.
      exfalso. exact (Qlt_not_le _ _ (H a (or_introl eq_refl)) Ha).
    - apply IH. intros b Hb. apply H. right. exact Hb. }
  unfold findFloatingBubbles, findFloatingBubbles_fuel, connectedToTop_fuel.
  rewrite Htop. simpl. clear.
  induction cb as [|a cb IH]; [reflexivity|]. simpl.
  replace (unvisited ∅ a) with true; [rewrite IH; reflexivity|].
  symmetry. apply unvisited_true. set_solver.
Qed.

Lemma no_ceiling_all_floating_witness :
  (forall b, In b hangingField -> (BUBBLE_RADIUS * 2 < Bubble.y b)%Q) /\
  findFloatingBubbles hangingField = hangingField.
Proof.
  assert (H : forall b, In b hangingField
                        -> (BUBBLE_RADIUS * 2 < Bubble.y b)%Q).
  { intros b [<- | []]. vm_compute. reflexivity. }
  split; [exact H | apply (no_ceiling_all_floating hangingField H)].
Defined.

Lemma uniqueIds_incl (l l' : list Bubble.t) :
  (forall b, In b l' -> In b l) -> uniqueIds l -> uniqueIds l'.
Proof. intros Hin Hu c1 c2 H1 H2. apply Hu; apply Hin; assumption. Qed.

(** X18: dropping the floating bubbles leaves nothing floating: after the
    bubbles findFloatingBubbles reports are removed by id, a second call on
    the remainder returns the empty list (ids identifying bubbles). *)
Theorem drop_leaves_none_floating (cb : list Bubble.t) :
  uniqueIds cb ->
  findFloatingBubbles
    (removeIds (list_to_set (map Bubble.id (findFloatingBubbles cb))) cb)
  = [].
Proof.
  intros Hu.
  set (F := findFloatingBubbles cb).
  set (G := removeIds (list_to_set (map Bubble.id F)) cb).
  assert (HG : forall b, In b G <-> In b cb /\ ~ In b F).
  { intros b. unfold G. rewrite removeIds_In.
    rewrite elem_of_list_to_set, list_elem_of_In, List.in_map_iff.
    split; intros [Hb Hn]; (split; [exact Hb|]).
    - intros HF. apply Hn. exists b. split; [reflexivity | exact HF].
    - intros (f & Hid & Hf).
      assert (f = b); [|subst f; exact (Hn Hf)].
      apply (Hu f b); [|exact Hb|exact Hid].
      apply findFloatingBubbles_incl. exact Hf. }
  assert (HuG : uniqueIds G).
  { apply (uniqueIds_incl cb); [|exact Hu]. intros b Hb. apply HG in Hb. tauto. }
  assert (Hkeep : forall b, In b G -> grounded cb b).
  { intros b Hb. apply HG in Hb. destruct Hb as [Hb HnF].
    destruct (connectedToTop_returns cb) as (r & Hr & _).
    assert (Hir : Bubble.id b ∈ r).
    { destruct (decide (Bubble.id b ∈ r)) as [Hi | Hi]; [exact Hi|].
      exfalso. apply HnF. unfold F, findFloatingBubbles,
        findFloatingBubbles_fuel. rewrite Hr. simpl.
      apply List.filter_In. split; [exact Hb|]. apply unvisited_true.
      exact Hi. }
    destruct (connectedToTop_sound cb r Hr _ Hir) as (c & Hc & Hid).
    rewrite <- (Hu c b (grounded_in cb c Hc) Hb Hid). exact Hc. }
  assert (Hmove : forall b, grounded cb b -> grounded G b).
  { intros b (t & Ht & Htop & Hc).
    assert (HtG : In t G).
    { apply HG. split; [exact Ht|]. intros HF.
      apply (floating_spec cb t Hu) in HF.
      destruct HF as [_ HF]. apply HF. exists t.
      split; [exact Ht|]. split; [exact Htop | apply connected_seed]. }
    exists t. split; [exact HtG|]. split; [exact Htop|].
    induction Hc as [|b n Hc IH Hn Hadj]; [apply connected_seed|].
    apply (connected_step near G t b n IH); [|exact Hadj].
    apply HG. split; [exact Hn|]. intros HF.
    apply (floating_spec cb n Hu) in HF.
    destruct HF as [_ HF]. apply HF. exists t.
    split; [exact Ht|]. split; [exact Htop|].
    exact (connected_step near cb t b n Hc Hn Hadj). }
  destruct (findFloatingBubbles G) as [|b l] eqn:E; [reflexivity|].
  exfalso.
  assert (Hb : In b (findFloatingBubbles G)) by (rewrite E; left; reflexivity).
  apply (floating_spec G b HuG) in Hb.
  destruct Hb as [Hb Hng]. apply Hng. apply Hmove. apply Hkeep. exact Hb.
Qed.

Lemma drop_leaves_none_floating_witness :
  uniqueIds [blue30; red00; green10] /\
  findFloatingBubbles [blue30; red00; green10] = [blue30] /\
  findFloatingBubbles
    (removeIds
       (list_to_set
          (map Bubble.id (findFloatingBubbles [blue30; red00; green10])))
       [blue30; red00; green10]) = [].
Proof.
  assert (Hu : uniqueIds [blue30; red00; green10]).
  { apply NoDup_ids_unique. apply (bool_decide_unpack _). vm_compute.
    exact I. }
  split; [exact Hu|]. split; [vm_compute; reflexivity|].
  apply (drop_leaves_none_floating [blue30; red00; green10] Hu).
Defined.

(** ** The neighbour test on the grid *)

Lemma isOffset_odd (r : Z) : isOffset r = Z.odd r.
Proof.
  unfold isOffset.
  pose proof (Z.quot_rem' r 2) as E.
  destruct (Z.rem r 2 =? 0) eqn:H.
  - apply Z.eqb_eq in H. rewrite H, Z.add_0_r in E. rewrite E.
    rewrite Z.odd_mul. reflexivity.
  - apply Z.eqb_neq in H. simpl.
    assert (Hb : Z.rem r 2 = 1 \/ Z.rem r 2 = -1).
    { pose proof (Z.rem_bound_abs r 2 ltac:(lia)). lia. }
    rewrite E. destruct Hb as [-> | ->].
    + rewrite Z.add_comm. rewrite Z.odd_add_mul_2. reflexivity.
    + replace (2 * (r ÷ 2) + -1) with (1 + 2 * (r ÷ 2 - 1)) by lia.
      rewrite Z.odd_add_mul_2. reflexivity.
Qed.

Lemma offsetUnits_succ (r : Z) : offsetUnits (r + 1) = 1 - offsetUnits r.
Proof.
  unfold offsetUnits. rewrite !isOffset_odd.
  replace (r + 1) with (Z.succ r) by lia. rewrite Z.odd_succ.
  rewrite <- Z.negb_odd. destruct (Z.odd r); reflexivity.
Qed.

(** The neighbour test between two cell centres, in integers. *)
Lemma distSq_cells (r1 c1 r2 c2 : Z) :
  (getDistanceSq (getX r1 c1) (getY r1) (getX r2 c2) (getY r2)
   < BUBBLE_RADIUS * 2.5 * (BUBBLE_RADIUS * 2.5))%Q
  <->
  4000000 * ((2 * (c2 - c1) + (offsetUnits r2 - offsetUnits r1))
             * (2 * (c2 - c1) + (offsetUnits r2 - offsetUnits r1)))
  + 11999296 * ((r2 - r1) * (r2 - r1)) < 25000000.
Proof.
  unfold getX, getY, offsetUnits.
  destruct (isOffset r1); destruct (isOffset r2);
    unfold getDistanceSq, Qlt, Qplus, Qmult, Qminus, Qopp, inject_Z,
      BUBBLE_RADIUS, ROW_FACTOR; simpl; split; intros; lia.
Qed.

Lemma hex_arith (u k : Z) :
  4000000 * (u * u) + 11999296 * (k * k) < 25000000
  <-> (k = 0 /\ -2 <= u <= 2) \/ ((k = -1 \/ k = 1) /\ -1 <= u <= 1).
Proof.
  split.
  - intros H.
    assert (Hk : -1 <= k <= 1) by nia.
    assert (Hu : -2 <= u <= 2) by nia.
    assert (k = -1 \/ k = 0 \/ k = 1) as [-> | [-> | ->]] by lia;
    assert (u = -2 \/ u = -1 \/ u = 0 \/ u = 1 \/ u = 2)
      as [-> | [-> | [-> | [-> | ->]]]] by lia; lia.
  - intros [[-> Hu] | [[-> | ->] Hu]];
    assert (u = -2 \/ u = -1 \/ u = 0 \/ u = 1 \/ u = 2)
      as [-> | [-> | [-> | [-> | ->]]]] by lia; lia.
Qed.

Lemma near_centres (r1 c1 r2 c2 : Z) :
  getDistance_ltb (getX r1 c1) (getY r1) (getX r2 c2) (getY r2)
    (BUBBLE_RADIUS * 2.5) = true
  <-> (r1, c1) = (r2, c2) \/ hexAdjacent (r1, c1) (r2, c2).
Proof.
  unfold getDistance_ltb. rewrite Qltb_lt.
  unfold hexAdjacent. cbn [fst snd].
  rewrite distSq_cells, hex_arith.
  pose proof (offsetUnits_succ r1) as Hs.
  pose proof (offsetUnits_succ (r1 - 1)) as Hp.
  replace (r1 - 1 + 1) with r1 in Hp by lia.
  assert (Ho : isOffset r1 = true /\ offsetUnits r1 = 1
               \/ isOffset r1 = false /\ offsetUnits r1 = 0).
  { unfold offsetUnits. destruct (isOffset r1); tauto. }
  split.
  - intros [[Hk Hu] | [[Hk | Hk] Hu]].
    + assert (r2 = r1) by lia. subst r2.
      assert (c2 = c1 - 1 \/ c2 = c1 \/ c2 = c1 + 1) as [-> | [-> | ->]]
        by lia; [right; left | left | right; left]; try tauto; reflexivity.
    + assert (r2 = r1 - 1) by lia. subst r2. right. right.
      split; [tauto|]. destruct Ho as [[-> Ho] | [-> Ho]]; lia.
    + assert (r2 = r1 + 1) by lia. subst r2. right. right.
      split; [tauto|]. destruct Ho as [[-> Ho] | [-> Ho]]; lia.
  - intros [[= -> ->] | [[-> Hc] | [[-> | ->] Hc]]].
    + left. lia.
    + left. lia.
    + right. destruct Ho as [[Hi Ho] | [Hi Ho]]; rewrite Hi in Hc; lia.
    + right. destruct Ho as [[Hi Ho] | [Hi Ho]]; rewrite Hi in Hc; lia.
Qed.

(** X3: for bubbles sitting at grid centres the neighbour test of the
    flood fills (distance below 2.5 * radius) is exactly adjacency on the
    staggered grid: it holds when the two bubbles share a cell or occupy
    two of the six mutually adjacent cells, and for no other pair. *)
Theorem near_is_hex_adjacency (b1 b2 : Bubble.t) :
  onGrid b1 -> onGrid b2 ->
  near b2 b1 = true <->
  cellOf b1 = cellOf b2 \/ hexAdjacent (cellOf b1) (cellOf b2).
Proof.
  intros [Hx1 Hy1] [Hx2 Hy2].
  rewrite near_sym. unfold near. rewrite Hx1, Hy1, Hx2, Hy2.
  rewrite near_centres.
  rewrite <- (surjective_pairing (cellOf b1)).
  rewrite <- (surjective_pairing (cellOf b2)). reflexivity.
Qed.

Lemma near_is_hex_adjacency_witness :
  onGrid red00 /\ onGrid green10 /\
  hexAdjacent (cellOf red00) (cellOf green10) /\
  near green10 red00 = true.
Proof.
  assert (H0 : onGrid red00) by apply onGrid_center.
  assert (H1 : onGrid green10) by apply onGrid_center.
  assert (Hh : hexAdjacent (cellOf red00) (cellOf green10)).
  { right. split; [right; vm_compute; reflexivity|].
    left. vm_compute. reflexivity. }
  split; [exact H0|]. split; [exact H1|]. split; [exact Hh|].
  apply (near_is_hex_adjacency red00 green10 H0 H1). right. exact Hh.
Defined.

(** ** Ids of a new game *)

(** X4: initGame gives the 45 bubbles pairwise distinct ids, whatever
    Math.random returns and however a number is rendered: the ids already
    differ in their row-column prefix. *)
Theorem initGame_ids_distinct (random : nat -> Q) (show : Q -> string)
    (s : State) :
  NoDup (map Bubble.id (bubblesRef (initGame random show s))) /\
  uniqueIds (bubblesRef (initGame random show s)).
Proof.
  assert (H : NoDup (map Bubble.id (initialBubbles random show))).
  { apply NoDup_ListNoDup. apply (List.NoDup_map_inv (idPrefix 4)).
    apply NoDup_ListNoDup. apply (bool_decide_unpack _).
    vm_compute. exact I. }
  split; [exact H | apply NoDup_ids_unique; exact H].
Qed.

(** ** Counting bubbles through a match *)

Lemma removeIds_ext (S S' : gset string) (l : list Bubble.t) :
  (forall b, In b l -> (Bubble.id b ∈ S <-> Bubble.id b ∈ S')) ->
  removeIds S l = removeIds S' l.
Proof.
  intros H. unfold removeIds. induction l as [|a l IH]; [reflexivity|].
  simpl. rewrite IH by (intros b Hb; apply H; right; exact Hb).
  replace (unvisited S' a) with (unvisited S a); [reflexivity|].
  unfold unvisited. f_equal. apply bool_decide_ext. apply H. left.
  reflexivity.
Qed.

Lemma removeIds_length (l : list Bubble.t) :
  NoDup (map Bubble.id l) ->
  forall S : gset string,
    S ⊆ list_to_set (map Bubble.id l) ->
    (length (removeIds S l) + size S = length l)%nat.
Proof.
  induction l as [|a l IH]; intros Hnd S HS.
  - simpl in *. assert (S = ∅) as -> by set_solver.
    rewrite size_empty. reflexivity.
  - simpl in Hnd. apply NoDup_cons in Hnd. destruct Hnd as [Ha Hnd].
    assert (Hfresh : forall b, In b l -> Bubble.id b <> Bubble.id a).
    { intros b Hb Hid. apply Ha. apply list_elem_of_In. rewrite <- Hid.
      apply List.in_map. exact Hb. }
    unfold removeIds. simpl. fold (removeIds S l).
    destruct (unvisited S a) eqn:Hu.
    + apply unvisited_true in Hu. simpl. rewrite IH; [reflexivity|exact Hnd|].
      intros i Hi. specialize (HS i Hi). simpl in HS.
      apply elem_of_union in HS. destruct HS as [HS | HS]; [|exact HS].
      apply elem_of_singleton in HS. subst i. contradiction.
    + apply unvisited_false in Hu.
      rewrite (removeIds_ext S (S ∖ {[Bubble.id a]}) l).
      * rewrite <- (IH Hnd (S ∖ {[Bubble.id a]})).
        -- assert (Hsz : size S = Datatypes.S (size (S ∖ {[Bubble.id a]}))).
           { rewrite (union_difference_singleton_L (Bubble.id a) S Hu) at 1.
             rewrite size_union by set_solver.
             rewrite size_singleton. reflexivity. }
           rewrite Hsz. lia.
        -- intros i Hi. apply elem_of_difference in Hi.
           destruct Hi as [Hi Hne]. specialize (HS i Hi). simpl in HS.
           apply elem_of_union in HS. destruct HS as [HS | HS];
             [contradiction | exact HS].
      * intros b Hb. rewrite elem_of_difference, elem_of_singleton.
        pose proof (Hfresh b Hb). tauto.
Qed.

Lemma NoDup_ids_filter (f : Bubble.t -> bool) (l : list Bubble.t) :
  NoDup (map Bubble.id l) -> NoDup (map Bubble.id (List.filter f l)).
Proof.
  induction l as [|a l IH]; intros Hnd; [exact Hnd|].
  simpl in Hnd. apply NoDup_cons in Hnd. destruct Hnd as [Ha Hnd].
  simpl. destruct (f a); [|apply IH; exact Hnd].
  simpl. apply NoDup_cons. split; [|apply IH; exact Hnd].
  intros Hin. apply Ha. apply list_elem_of_In in Hin.
  apply List.in_map_iff in Hin. destruct Hin as (b & Hid & Hb).
  apply List.filter_In in Hb. apply list_elem_of_In. rewrite <- Hid.
  apply List.in_map. tauto.
Qed.

(** X19: a match accounts for every bubble: with unique ids, the bubbles
    left in the field, the m matched ones and the f dropped ones add up to
    the field before the shot plus the new bubble. *)
Theorem match_conserves_bubbles (bubbles : list Bubble.t) (score0 : Z)
    (newBubble : Bubble.t) :
  let updated := bubbles ++ [newBubble] in
  let matches := findMatches newBubble updated in
  let floating := findFloatingBubbles (removeIds matches updated) in
  NoDup (map Bubble.id updated) ->
  3 <= Z.of_nat (size matches) ->
  (length (fst (settle bubbles score0 newBubble)) + size matches
   + length floating = length bubbles + 1)%nat.
Proof.
  intros updated matches floating Hnd Hm.
  rewrite (settle_match bubbles score0 newBubble Hm). cbn [fst].
  fold updated. fold matches. fold floating.
  set (afterMatch := removeIds matches updated).
  assert (Hnew : In newBubble updated).
  { apply List.in_or_app. right. left. reflexivity. }
  assert (H1 : (length afterMatch + size matches = length updated)%nat).
  { apply removeIds_length; [exact Hnd|].
    intros i Hi.
    destruct (findMatches_sound newBubble updated i Hi) as (c & Hc & <-).
    apply elem_of_list_to_set, list_elem_of_In, List.in_map.
    destruct (connected_in _ _ _ _ Hc) as [<- | Hin]; assumption. }
  assert (Hnd' : NoDup (map Bubble.id afterMatch)).
  { apply NoDup_ids_filter. exact Hnd. }
  assert (Hfl : forall b, In b floating -> In b afterMatch).
  { intros b. apply findFloatingBubbles_incl. }
  assert (HndF : NoDup (map Bubble.id floating)).
  { unfold floating, findFloatingBubbles, findFloatingBubbles_fuel.
    destruct (connectedToTop_fuel _ _); simpl;
      [apply NoDup_ids_filter; exact Hnd' | constructor]. }
  assert (H2 : (length (removeIds (list_to_set (map Bubble.id floating))
                          afterMatch)
                + size (list_to_set (C := gset string)
                          (map Bubble.id floating))
                = length afterMatch)%nat).
  { apply removeIds_length; [exact Hnd'|].
    intros i Hi. apply elem_of_list_to_set, list_elem_of_In in Hi.
    apply List.in_map_iff in Hi. destruct Hi as (b & <- & Hb).
    apply elem_of_list_to_set, list_elem_of_In, List.in_map, Hfl, Hb. }
  rewrite size_list_to_set in H2 by exact HndF.
  rewrite List.length_map in H2.
  unfold updated in H1. rewrite List.length_app in H1. simpl in H1. lia.
Qed.

Lemma match_conserves_bubbles_witness :
  NoDup (map Bubble.id (sampleField ++ [sampleNew])) /\
  3 <= Z.of_nat (size (findMatches sampleNew (sampleField ++ [sampleNew]))) /\
  (length (fst (settle sampleField 0 sampleNew))
   + size (findMatches sampleNew (sampleField ++ [sampleNew]))
   + length (findFloatingBubbles
               (removeIds (findMatches sampleNew (sampleField ++ [sampleNew]))
                  (sampleField ++ [sampleNew])))
   = length sampleField + 1)%nat.
Proof.
  assert (Hm : 3 <= Z.of_nat (size (findMatches sampleNew
                                      (sampleField ++ [sampleNew])))).
  { vm_compute. discriminate. }
  split; [exact sampleField_ids|]. split; [exact Hm|].
  apply (match_conserves_bubbles sampleField 0 sampleNew sampleField_ids Hm).
Defined.

(** ** Frames in which nothing is hit *)

Lemma collided_false (bubbles : list Bubble.t) (p : Projectile.t) :
  collided bubbles p = false ->
  (BUBBLE_RADIUS <= Projectile.y p)%Q.
Proof.
  unfold collided. intros H. apply orb_false_elim in H.
  destruct H as [H _]. apply Qltb_ge. exact H.
Qed.

(** X7: a frame in which the projectile hits nothing leaves the field, the
    score and the game state alone.  The projectile is then at or below the
    ceiling line, so the test y < -radius never discards it: it is
    discarded exactly when it has fallen below height + radius, and
    otherwise flies on. *)
Theorem frame_without_collision (s : State) (now : Z) (p : Projectile.t) :
  gameState s = playing -> projectileRef s = Some p ->
  collided (bubblesRef s) (moveProjectile p) = false ->
  bubblesRef (update s now) = bubblesRef s /\
  score (update s now) = score s /\
  gameState (update s now) = playing /\
  (BUBBLE_RADIUS <= Projectile.y (moveProjectile p))%Q /\
  ((CANVAS_HEIGHT + BUBBLE_RADIUS < Projectile.y (moveProjectile p))%Q ->
   projectileRef (update s now) = None) /\
  ((Projectile.y (moveProjectile p) <= CANVAS_HEIGHT + BUBBLE_RADIUS)%Q ->
   projectileRef (update s now) = Some (moveProjectile p)).
Proof.
  intros Hg Hp Hc. rewrite (update_flying s now p Hg Hp Hc).
  cbn [bubblesRef score gameState projectileRef].
  pose proof (collided_false _ _ Hc) as Hy.
  split; [reflexivity|]. split; [reflexivity|]. split; [exact Hg|].
  split; [exact Hy|].
  assert (Htop : Qltb (Projectile.y (moveProjectile p)) (- BUBBLE_RADIUS)
                 = false).
  { apply Qltb_ge. apply (Qle_trans _ BUBBLE_RADIUS); [|exact Hy].
    vm_compute. discriminate. }
  rewrite Htop. cbn [orb]. unfold Qgtb. split.
  - intros H. apply Qltb_lt in H. rewrite H. reflexivity.
  - intros H. apply Qltb_ge in H. rewrite H. reflexivity.
Qed.

Lemma firstShotFired_flies :
  collided (bubblesRef firstShotFired)
    (moveProjectile
       {| Projectile.x := startX; Projectile.y := startY;
          Projectile.vx := (cosAngle firstClick * speed)%Q;
          Projectile.vy := (sinAngle firstClick * speed)%Q;
          Projectile.color := "#55FF55" |}) = false.
Proof. vm_compute. reflexivity. Qed.

Lemma frame_without_collision_witness :
  gameState firstShotFired = playing /\
  bubblesRef (update firstShotFired 16) = bubblesRef firstShotFired /\
  score (update firstShotFired 16) = score firstShotFired.
Proof.
  split; [reflexivity|].
  destruct (frame_without_collision firstShotFired 16 _ eq_refl eq_refl
              firstShotFired_flies) as (H1 & H2 & _).
  split; [exact H1 | exact H2].
Defined.

(** One frame of a level shot below a field that has not reached the
    danger line. *)
Lemma level_frame (s : State) (now : Z) (p : Projectile.t) :
  gameState s = playing -> projectileRef s = Some p ->
  (Projectile.vy p == 0)%Q -> (Projectile.y p == startY)%Q ->
  reachedDangerLine (bubblesRef s) = false ->
  update s now =
  {| score := score s; gameState := gameState s; bubblesRef := bubblesRef s;
     nextColor := nextColor s;
     projectileRef := Some (moveProjectile p) |} /\
  (Projectile.vy (moveProjectile p) == 0)%Q /\
  (Projectile.y (moveProjectile p) == startY)%Q.
Proof.
  intros Hg Hp Hvy Hy Hd.
  destruct (Flight.moveProjectile_fields p) as (_ & Hy' & Hvy' & _).
  assert (Hy1 : (Projectile.y (moveProjectile p) == 460)%Q).
  { rewrite Hy', Hvy, Hy. reflexivity. }
  assert (Hc : collided (bubblesRef s) (moveProjectile p) = false).
  { unfold collided. apply orb_false_intro.
    - apply Qltb_ge. rewrite Hy1. vm_compute. discriminate.
    - apply not_true_is_false. intros He.
      apply List.existsb_exists in He. destruct He as (b & Hb & Hnear).
      assert (Hyb : (Bubble.y b <= 400)%Q).
      { destruct (Qlt_le_dec 400 (Bubble.y b)) as [Hgt | Hle]; [|exact Hle].
        exfalso.
        assert (Ht : reachedDangerLine (bubblesRef s) = true).
        { apply reachedDangerLine_spec. exists b. split; [exact Hb|].
          exact Hgt. }
        congruence. }
      unfold getDistance_ltb in Hnear. apply Qltb_lt in Hnear.
      unfold getDistanceSq, BUBBLE_RADIUS in Hnear.
      revert Hnear Hy1 Hyb.
      generalize (Projectile.y (moveProjectile p)) (Bubble.y b)
        (Projectile.x (moveProjectile p)) (Bubble.x b).
      intros py yb px xb Hnear Hy1 Hyb.
      assert (H1 : (0 <= (xb - px) * (xb - px))%Q).
      { generalize (xb - px)%Q. intros a. Lqa.nra. }
      assert (H2 : (60 * 60 <= (yb - py) * (yb - py))%Q).
      { assert (Hdiff : (yb - py <= - (60))%Q) by Lqa.lra. revert Hdiff.
        generalize (yb - py)%Q. intros d Hdiff. Lqa.nra. }
      Lqa.lra. }
  rewrite (update_flying s now p Hg Hp Hc).
  split; [|split; [rewrite Hvy'; exact Hvy | rewrite Hy1; reflexivity]].
  assert (H1 : Qltb (Projectile.y (moveProjectile p)) (- BUBBLE_RADIUS)
               = false).
  { apply Qltb_ge. rewrite Hy1. vm_compute. discriminate. }
  assert (H2 : Qgtb (Projectile.y (moveProjectile p))
                 (CANVAS_HEIGHT + BUBBLE_RADIUS) = false).
  { unfold Qgtb. apply Qltb_ge. rewrite Hy1. vm_compute. discriminate. }
  rewrite H1, H2. reflexivity.
Qed.

(** X8: a shot fired level with the launch point never lands.  With
    vy = 0 the projectile keeps the launch height, out of reach of every
    bubble of a field that has not crossed the danger line, so whatever
    frames and clicks follow, it is still in flight, the field and the
    score are unchanged, and no further shot can be fired until reset. *)
Theorem level_shot_never_lands (s : State) (p : Projectile.t)
    (evs : list Event) :
  gameState s = playing -> projectileRef s = Some p ->
  (Projectile.vy p == 0)%Q -> (Projectile.y p == startY)%Q ->
  reachedDangerLine (bubblesRef s) = false ->
  forallb isTickOrFire evs = true ->
  exists p', projectileRef (run evs s) = Some p' /\
             bubblesRef (run evs s) = bubblesRef s /\
             score (run evs s) = score s /\
             gameState (run evs s) = playing.
Proof.
  intros Hg Hp Hvy Hy Hd Hevs.
  revert s p Hg Hp Hvy Hy Hd.
  induction evs as [|e evs IH]; intros s p Hg Hp Hvy Hy Hd.
  - exists p. simpl. tauto.
  - simpl in Hevs. apply andb_true_iff in Hevs. destruct Hevs as [He Hevs].
    change (run (e :: evs) s) with (run evs (step s e)).
    destruct e as [random show | c | now]; [discriminate| |].
    + simpl. rewrite (fire_ignored s c); [|right; congruence].
      exact (IH Hevs s p Hg Hp Hvy Hy Hd).
    + simpl.
      destruct (level_frame s now p Hg Hp Hvy Hy Hd) as (Hu & Hvy' & Hy').
      assert (Hb : bubblesRef (update s now) = bubblesRef s)
        by (rewrite Hu; reflexivity).
      assert (Hs : score (update s now) = score s)
        by (rewrite Hu; reflexivity).
      assert (Hg' : gameState (update s now) = playing)
        by (rewrite Hu; exact Hg).
      assert (Hp' : projectileRef (update s now) = Some (moveProjectile p))
        by (rewrite Hu; reflexivity).
      destruct (IH Hevs (update s now) (moveProjectile p) Hg' Hp' Hvy' Hy')
        as (p' & H1 & H2 & H3 & H4); [rewrite Hb; exact Hd|].
      exists p'. rewrite Hb in H2. rewrite Hs in H3. tauto.
Qed.

Lemma levelShotFired_reachable : reachable levelShotFired.
Proof.
  exists (1 # 4)%Q, [Reset allRed showHalf; Fire levelClick].
  split; [split; vm_compute; congruence|]. split; [|reflexivity].
  constructor; [|constructor; [|constructor]].
  - intros k. split; vm_compute; congruence.
  - unfold Click_ok, isDraw. cbv zeta.
    repeat split; try (vm_compute; congruence);
      match goal with H : (targetX _ - _ == 0)%Q |- _ =>
        vm_compute in H; discriminate H end.
Qed.

Lemma level_shot_never_lands_witness :
  reachable levelShotFired /\
  gameState levelShotFired = playing /\
  reachedDangerLine (bubblesRef levelShotFired) = false /\
  exists p', projectileRef
               (run [Tick 16; Fire firstClick; Tick 32] levelShotFired)
             = Some p'.
Proof.
  split; [exact levelShotFired_reachable|]. split; [reflexivity|].
  assert (Hd : reachedDangerLine (bubblesRef levelShotFired) = false).
  { vm_compute. reflexivity. }
  split; [exact Hd|].
  destruct (level_shot_never_lands levelShotFired _
              [Tick 16; Fire firstClick; Tick 32] eq_refl eq_refl)
    as (p' & Hp' & _); try reflexivity; try exact Hd.
  exists p'. exact Hp'.
Defined.

(** ** Cosmetic queues *)

Lemma stepHearts_visible (hs : list HeartParticle.t) :
  Forall (fun p => (0 < HeartParticle.opacity p)%Q) (stepHearts hs).
Proof.
  apply Forall_forall. intros p Hp. apply list_elem_of_In in Hp.
  unfold stepHearts in Hp. apply List.filter_In in Hp.
  destruct Hp as [_ Hp]. unfold Qgtb in Hp. apply Qltb_lt. exact Hp.
Qed.

Lemma stepHearts_fades (c : Q) (hs : list HeartParticle.t) :
  Forall (fun p => (HeartParticle.opacity p <= c)%Q) hs ->
  Forall (fun p => (HeartParticle.opacity p <= c - 0.015)%Q) (stepHearts hs).
Proof.
  intros H. apply Forall_forall. intros p Hp. apply list_elem_of_In in Hp.
  unfold stepHearts in Hp. apply List.filter_In in Hp.
  destruct Hp as [Hp _]. apply List.in_map_iff in Hp.
  destruct Hp as (q & <- & Hq). rewrite Forall_forall in H.
  specialize (H q ltac:(apply list_elem_of_In; exact Hq)).
  unfold moveHeart. cbn [HeartParticle.opacity]. Lqa.lra.
Qed.

Lemma iter_stepHearts_fades (k : nat) (hs : list HeartParticle.t) :
  Forall (fun p => (HeartParticle.opacity p <= 1)%Q) hs ->
  Forall (fun p => (HeartParticle.opacity p
                    <= 1 - 0.015 * inject_Z (Z.of_nat k))%Q)
         (Nat.iter k stepHearts hs).
Proof.
  intros H. induction k as [|k IH].
  - simpl. eapply Forall_impl; [exact H|]. intros p Hp. simpl in Hp.
    change (inject_Z (Z.of_nat 0)) with 0%Q. Lqa.lra.
  - simpl. apply stepHearts_fades in IH.
    eapply Forall_impl; [exact IH|]. intros p Hp. simpl in Hp.
    rewrite Nat2Z.inj_succ. unfold Z.succ. rewrite inject_Z_plus.
    change (inject_Z 1) with 1%Q. Lqa.lra.
Qed.

(** X24: hearts do not pile up: every heart particle that starts with
    opacity at most 1, as those of createHeartExplosion do, is gone from
    the queue after 67 frames. *)
Theorem hearts_fade_out (hs : list HeartParticle.t) :
  Forall (fun p => (HeartParticle.opacity p <= 1)%Q) hs ->
  Nat.iter 67 stepHearts hs = [].
Proof.
  intros H.
  pose proof (iter_stepHearts_fades 67 hs H) as Hle.
  change (Nat.iter 67 stepHearts hs)
    with (stepHearts (Nat.iter 66 stepHearts hs)) in *.
  pose proof (stepHearts_visible (Nat.iter 66 stepHearts hs)) as Hpos.
  destruct (stepHearts (Nat.iter 66 stepHearts hs)) as [|p l];
    [reflexivity|].
  exfalso. apply Forall_cons in Hle, Hpos.
  destruct Hle as [Hle _]. destruct Hpos as [Hpos _].
  change (inject_Z (Z.of_nat 67)) with 67%Q in Hle. Lqa.lra.
Qed.

Lemma hearts_fade_out_witness :
  Forall (fun p => (HeartParticle.opacity p <= 1)%Q)
         (createHeartExplosion 100 20 sampleHeartDraw []) /\
  Nat.iter 67 stepHearts (createHeartExplosion 100 20 sampleHeartDraw [])
  = [].
Proof.
  assert (H : Forall (fun p => (HeartParticle.opacity p <= 1)%Q)
                     (createHeartExplosion 100 20 sampleHeartDraw [])).
  { unfold createHeartExplosion. simpl.
    repeat (constructor; [vm_compute; discriminate|]). constructor. }
  split; [exact H|].
  apply (hearts_fade_out _ H).
Defined.

Lemma stepFloatingImages_rises (c : Q) (imgs : list FloatingImage.t) :
  Forall (fun img => (FloatingImage.y img <= c)%Q) imgs ->
  Forall (fun img => (- (103) < FloatingImage.y img)%Q /\
                     (FloatingImage.y img <= c - 3)%Q)
         (stepFloatingImages imgs).
Proof.
  intros H. apply Forall_forall. intros img Hi.
  apply list_elem_of_In in Hi. unfold stepFloatingImages in Hi.
  apply List.in_map_iff in Hi. destruct Hi as (q & <- & Hq).
  apply List.filter_In in Hq. destruct Hq as [Hq Hy].
  unfold Qgtb in Hy. apply Qltb_lt in Hy.
  rewrite Forall_forall in H.
  specialize (H q ltac:(apply list_elem_of_In; exact Hq)).
  unfold moveImage. cbn [FloatingImage.y]. split; Lqa.lra.
Qed.

Lemma iter_stepFloatingImages_rises (k : nat) (c : Q)
    (imgs : list FloatingImage.t) :
  Forall (fun img => (FloatingImage.y img <= c)%Q) imgs ->
  Forall (fun img => (FloatingImage.y img
                      <= c - 3 * inject_Z (Z.of_nat k))%Q)
         (Nat.iter k stepFloatingImages imgs).
Proof.
  intros H. induction k as [|k IH].
  - simpl. eapply Forall_impl; [exact H|]. intros p Hp. simpl in Hp.
    change (inject_Z (Z.of_nat 0)) with 0%Q. Lqa.lra.
  - simpl. apply stepFloatingImages_rises in IH.
    eapply Forall_impl; [exact IH|]. intros p [_ Hp]. simpl in Hp.
    rewrite Nat2Z.inj_succ. unfold Z.succ. rewrite inject_Z_plus.
    change (inject_Z 1) with 1%Q. Lqa.lra.
Qed.

(** X25: floating pictures do not pile up: every picture that starts at or
    above y = height + 60, where a match launches it, has left the queue
    after 221 frames. *)
Theorem images_leave (imgs : list FloatingImage.t) :
  Forall (fun img => (FloatingImage.y img <= CANVAS_HEIGHT + 60)%Q) imgs ->
  Nat.iter 221 stepFloatingImages imgs = [].
Proof.
  intros H.
  pose proof (iter_stepFloatingImages_rises 220 _ imgs H) as Hle.
  change (Nat.iter 221 stepFloatingImages imgs)
    with (stepFloatingImages (Nat.iter 220 stepFloatingImages imgs)).
  apply stepFloatingImages_rises in Hle.
  destruct (stepFloatingImages (Nat.iter 220 stepFloatingImages imgs))
    as [|p l]; [reflexivity|].
  exfalso. apply Forall_cons in Hle. destruct Hle as [[Hlo Hhi] _].
  change (inject_Z (Z.of_nat 220)) with 220%Q in Hhi.
  unfold CANVAS_HEIGHT in Hhi. Lqa.lra.
Qed.

Lemma images_leave_witness :
  Forall (fun img => (FloatingImage.y img <= CANVAS_HEIGHT + 60)%Q)
         (launchImage sampleNew (1 # 2) 8 5 []) /\
  length (Nat.iter 220 stepFloatingImages
            (launchImage sampleNew (1 # 2) 8 5 [])) = 1%nat /\
  Nat.iter 221 stepFloatingImages (launchImage sampleNew (1 # 2) 8 5 [])
  = [].
Proof.
  assert (H : Forall (fun img => (FloatingImage.y img
                                  <= CANVAS_HEIGHT + 60)%Q)
                     (launchImage sampleNew (1 # 2) 8 5 [])).
  { unfold launchImage. simpl. constructor; [|constructor].
    vm_compute. discriminate. }
  split; [exact H|]. split; [vm_compute; reflexivity|].
  apply (images_leave _ H).
Defined.

(** ** Every click: invariants of the game *)

Lemma Click_ok_bounded (c : Click) : Click_ok c -> Click_bounded c.
Proof.
  intros (_ & _ & _ & _ & Hunit & _ & _ & _ & Hd).
  unfold Click_bounded. revert Hunit.
  generalize (cosAngle c) (sinAngle c). intros a b Hunit.
  repeat (split; [Lqa.nra|]). exact Hd.
Qed.

Lemma reachable_attainable (s : State) : reachable s -> attainable s.
Proof.
  intros (r & evs & Hr & Hevs & ->). exists r, evs.
  split; [exact Hr|]. split; [|reflexivity].
  eapply Forall_impl; [exact Hevs|].
  intros [random show | c | now] He; [exact He | | exact I].
  exact (Click_ok_bounded c He).
Qed.

(** Induction over the events that lead to a state of the game. *)
Lemma attainable_inv (P : State -> Prop) :
  (forall r, isDraw r -> P (initialState r)) ->
  (forall s e, attainable s -> P s -> Event_bounded e -> P (step s e)) ->
  forall s, attainable s -> P s.
Proof.
  intros Hinit Hstep s (r & evs & Hr & Hevs & ->).
  induction evs as [|e evs IH] using rev_ind.
  - apply Hinit. exact Hr.
  - apply Forall_app in Hevs. destruct Hevs as [Hevs He].
    rewrite run_snoc. apply Hstep.
    + exists r, evs. split; [exact Hr | split; [exact Hevs | reflexivity]].
    + apply IH. exact Hevs.
    + apply Forall_cons in He. tauto.
Qed.

(** X5: every colour the game ever holds is one of the six of [COLORS]:
    the colours of the stored bubbles, of the projectile in flight and of
    the previewed next projectile. *)
Theorem colours_in_palette (s : State) :
  attainable s ->
  Forall (fun b => In (Bubble.color b) COLORS) (bubblesRef s) /\
  In (nextColor s) COLORS /\
  (forall p, projectileRef s = Some p -> In (Projectile.color p) COLORS).
Proof.
  revert s. apply attainable_inv.
  - intros r Hr. simpl. split; [constructor|].
    split; [apply pickColor_palette; exact Hr | discriminate].
  - intros s e _ (Hb & Hn & Hp) He. destruct e as [random show | c | now].
    + simpl in *. split; [|split; [exact Hn | discriminate]].
      apply initialBubbles_Forall. intros k row col. simpl.
      apply pickColor_palette. apply He.
    + simpl. unfold handleCanvasClick.
      destruct (_ || _); [tauto|]. simpl.
      split; [exact Hb|]. split.
      * apply pickColor_palette. apply He.
      * intros p [= <-]. exact Hn.
    + simpl. destruct (update_cases s now) as [-> | [H | H]]; [tauto| |];
        destruct H as (p & Hg & Hpr & Hc).
      * rewrite (update_collided s now p Hg Hpr Hc). cbv zeta. simpl.
        split; [|split; [exact Hn | discriminate]].
        apply settle_Forall; [exact Hb|]. simpl. apply (Hp p Hpr).
      * rewrite (update_flying s now p Hg Hpr Hc). simpl.
        split; [exact Hb|]. split; [exact Hn|].
        destruct (_ || _); [discriminate|].
        intros p' [= <-]. simpl. apply (Hp p Hpr).
Qed.

Lemma afterTwoShots_attainable : attainable afterTwoShots.
Proof. exact (reachable_attainable _ afterTwoShots_reachable). Qed.

Lemma freshGame_attainable : attainable freshGame.
Proof. exact (reachable_attainable _ freshGame_reachable). Qed.

Lemma colours_in_palette_witness :
  attainable afterTwoShots /\ In (nextColor afterTwoShots) COLORS.
Proof.
  split; [exact afterTwoShots_attainable|].
  destruct (colours_in_palette afterTwoShots afterTwoShots_attainable)
    as (_ & H & _).
  exact H.
Defined.

(** X21: in every state of the game the score is a non-negative multiple
    of ten. *)
Theorem score_multiple_of_ten (s : State) :
  attainable s -> exists k, 0 <= k /\ score s = 10 * k.
Proof.
  revert s. apply attainable_inv.
  - intros r _. exists 0. simpl. lia.
  - intros s e _ (k & Hk & Hs) _.
    destruct (isReset e) eqn:He.
    + destruct e; try discriminate. exists 0. simpl. lia.
    + destruct (step_score s e He) as (k1 & Hk1 & H1).
      exists (k + k1). split; lia.
Qed.

Lemma score_multiple_of_ten_witness :
  attainable afterTwoShots /\
  exists k, 0 <= k /\ score afterTwoShots = 10 * k.
Proof.
  split; [exact afterTwoShots_attainable|].
  apply (score_multiple_of_ten afterTwoShots afterTwoShots_attainable).
Defined.

Lemma attainable_danger_line (s : State) :
  attainable s ->
  (gameState s = playing -> reachedDangerLine (bubblesRef s) = false) /\
  (gameState s = start -> bubblesRef s = [] /\ score s = 0) /\
  (gameState s <> playing -> projectileRef s = None).
Proof.
  revert s. apply attainable_inv.
  - intros r _. simpl. repeat split; congruence.
  - intros s e _ (Hplay & Hstart & Hidle) _.
    destruct e as [random show | c | now].
    + simpl. split; [intros _; vm_compute; reflexivity|].
      split; [discriminate | congruence].
    + simpl. unfold handleCanvasClick.
      destruct (_ || _) eqn:Hcond; [tauto|]. simpl.
      apply orb_false_elim in Hcond. destruct Hcond as [Hg _].
      apply negb_false_iff in Hg.
      assert (Hp : gameState s = playing)
        by (destruct (gameState s); simpl in Hg; congruence).
      split; [exact Hplay|]. split; [congruence | congruence].
    + simpl. destruct (update_cases s now) as [-> | [H | H]]; [tauto| |];
        destruct H as (p & Hg & Hpr & Hc).
      * rewrite (update_collided s now p Hg Hpr Hc). cbv zeta.
        cbn [gameState bubblesRef score projectileRef].
        generalize (settle (bubblesRef s) (score s)
                      (newBubbleFor (bubblesRef s) (moveProjectile p) now)).
        intros r. destruct (reachedDangerLine (fst r)) eqn:Hd.
        -- split; [discriminate|]. split; [discriminate | reflexivity].
        -- split; [intros _; reflexivity|].
           split; [discriminate | reflexivity].
      * rewrite (update_flying s now p Hg Hpr Hc). simpl.
        split; [exact Hplay|]. split; congruence.
Qed.

(** X22: while the game is being played no stored bubble lies past the
    danger line (y > height - 100); before the first game the field is
    empty and the score zero; and outside [playing] there is never a
    projectile in flight. *)
Theorem danger_line_invariant (s : State) :
  attainable s ->
  (gameState s = playing -> reachedDangerLine (bubblesRef s) = false) /\
  (gameState s = start -> bubblesRef s = [] /\ score s = 0) /\
  (gameState s <> playing -> projectileRef s = None).
Proof. exact (attainable_danger_line s). Qed.

Lemma danger_line_invariant_witness :
  attainable freshGame /\ gameState freshGame = playing /\
  reachedDangerLine (bubblesRef freshGame) = false.
Proof.
  split; [exact freshGame_attainable|].
  assert (Hg : gameState freshGame = playing) by reflexivity.
  split; [exact Hg|].
  destruct (danger_line_invariant freshGame freshGame_attainable)
    as [H _].
  exact (H Hg).
Defined.

Lemma attainable_on_grid (s : State) :
  attainable s -> Forall onGrid (bubblesRef s).
Proof.
  revert s. apply attainable_inv.
  - intros r _. constructor.
  - intros s e _ Hb _. destruct e as [random show | c | now].
    + simpl. apply initialBubbles_Forall. intros k row col.
      apply onGrid_center.
    + simpl. unfold handleCanvasClick. destruct (_ || _); exact Hb.
    + simpl. destruct (update_cases s now) as [-> | [H | H]]; [exact Hb| |];
        destruct H as (p & Hg & Hpr & Hc).
      * rewrite (update_collided s now p Hg Hpr Hc). cbv zeta. simpl.
        apply settle_Forall; [exact Hb|]. apply onGrid_center.
      * rewrite (update_flying s now p Hg Hpr Hc). exact Hb.
Qed.

(** X23: every bubble stored in a state of the game sits exactly at the
    pixel centre of its own grid address, so converting it to a grid
    address and back returns the very same coordinates.  The addresses
    are on the board or next to it ([attainable_near_board]), where the
    round trip holds in double precision as well. *)
Theorem bubbles_on_grid (s : State) :
  attainable s -> Forall onGrid (bubblesRef s).
Proof. exact (attainable_on_grid s). Qed.

Lemma bubbles_on_grid_witness :
  attainable afterTwoShots /\ Forall onGrid (bubblesRef afterTwoShots).
Proof.
  split; [exact afterTwoShots_attainable|].
  apply (bubbles_on_grid afterTwoShots afterTwoShots_attainable).
Defined.

(** ** The projectile between two frames *)

Lemma moveProjectile_nearWalls (p : Projectile.t) :
  (- (8) <= Projectile.vx p)%Q -> (Projectile.vx p <= 8)%Q ->
  nearWalls p -> nearWalls (moveProjectile p).
Proof.
  intros Hlo Hhi Hw.
  destruct (Flight.moveProjectile_fields p) as (Hx & _ & _ & _ & H).
  pose proof Flight.BUBBLE_RADIUS_val as HR.
  pose proof Flight.CANVAS_WIDTH_val as HW.
  unfold nearWalls in *. rewrite Hx.
  destruct H as [[Hout ->] | [Hin ->]].
  - destruct Hout as [Hout | Hout].
    + right. left.
      destruct Hw as [[? ?] | [(? & ? & ?) | (? & ? & ?)]];
        repeat split; Lqa.lra.
    + right. right.
      destruct Hw as [[? ?] | [(? & ? & ?) | (? & ? & ?)]];
        repeat split; Lqa.lra.
  - left. exact Hin.
Qed.

Lemma moveProjectile_vx (p : Projectile.t) :
  (- (8) <= Projectile.vx p)%Q -> (Projectile.vx p <= 8)%Q ->
  (- (8) <= Projectile.vx (moveProjectile p))%Q /\
  (Projectile.vx (moveProjectile p) <= 8)%Q.
Proof.
  intros Hlo Hhi.
  destruct (Flight.moveProjectile_fields p) as (_ & _ & _ & _ & H).
  destruct H as [[_ ->] | [_ ->]]; split; Lqa.lra.
Qed.

Lemma nearWalls_bounds (p : Projectile.t) :
  (- (8) <= Projectile.vx p)%Q -> (Projectile.vx p <= 8)%Q ->
  nearWalls p ->
  (BUBBLE_RADIUS - 8 <= Projectile.x p)%Q /\
  (Projectile.x p <= CANVAS_WIDTH - BUBBLE_RADIUS + 8)%Q.
Proof.
  intros Hlo Hhi Hw.
  pose proof Flight.BUBBLE_RADIUS_val as HR.
  pose proof Flight.CANVAS_WIDTH_val as HW.
  unfold nearWalls in Hw.
  destruct Hw as [[? ?] | [(? & ? & ?) | (? & ? & ?)]]; split; Lqa.lra.
Qed.

(** The projectile of a state of the game is [inFlight]. *)
Lemma attainable_projectile (s : State) :
  attainable s ->
  forall q, projectileRef s = Some q -> inFlight q.
Proof.
  revert s.
  apply (attainable_inv
           (fun s => forall q, projectileRef s = Some q -> inFlight q)).
  - intros r _ q. discriminate.
  - intros s e _ IH He q. destruct e as [random show | c | now].
    + discriminate.
    + simpl. unfold handleCanvasClick.
      destruct (_ || _); [apply IH|]. simpl. intros [= <-].
      destruct He as (Hc1 & Hc2 & Hs1 & Hs2 & _).
      unfold inFlight. cbn [Projectile.x Projectile.y Projectile.vx
                              Projectile.vy].
      unfold speed.
      split; [Lqa.lra|]. split; [Lqa.lra|].
      split; [Lqa.lra|]. split; [Lqa.lra|].
      split; [left; cbn [Projectile.x]; split; vm_compute; discriminate|].
      split; vm_compute; discriminate.
    + simpl. destruct (update_cases s now) as [-> | [H | H]]; [apply IH| |];
        destruct H as (p0 & Hg & Hpr & Hc).
      * rewrite (update_collided s now p0 Hg Hpr Hc). discriminate.
      * rewrite (update_flying s now p0 Hg Hpr Hc). simpl.
        destruct (_ || _) eqn:Hout; [discriminate|]. intros [= <-].
        destruct (IH p0 Hpr) as (Hx1 & Hx2 & Hy1 & Hy2 & Hw & _).
        destruct (moveProjectile_vx p0 Hx1 Hx2) as [Hx1' Hx2'].
        destruct (Flight.moveProjectile_fields p0) as (_ & _ & Hvy & _).
        apply orb_false_elim in Hout. destruct Hout as [_ Hlow].
        apply Qltb_ge in Hlow.
        unfold inFlight. rewrite Hvy.
        repeat (split; [assumption|]).
        split; [exact (moveProjectile_nearWalls p0 Hx1 Hx2 Hw)|].
        split; [exact (collided_false _ _ Hc) | exact Hlow].
Qed.

Lemma firstShotFired_attainable : attainable firstShotFired.
Proof. exact (reachable_attainable _ firstShotFired_reachable). Qed.

(** X6: in every state of the game the projectile in flight moves by at
    most 8 pixels per frame in each direction and is never more than one
    step beyond a side wall: radius - 8 <= x <= width - radius + 8. *)
Theorem projectile_stays_near_walls (s : State) (p : Projectile.t) :
  attainable s -> projectileRef s = Some p ->
  (- (8) <= Projectile.vx p)%Q /\ (Projectile.vx p <= 8)%Q /\
  (- (8) <= Projectile.vy p)%Q /\ (Projectile.vy p <= 8)%Q /\
  (BUBBLE_RADIUS - 8 <= Projectile.x p)%Q /\
  (Projectile.x p <= CANVAS_WIDTH - BUBBLE_RADIUS + 8)%Q.
Proof.
  intros Hs Hp.
  destruct (attainable_projectile s Hs p Hp)
    as (Hx1 & Hx2 & Hy1 & Hy2 & Hw & _).
  repeat (split; [assumption|]).
  exact (nearWalls_bounds p Hx1 Hx2 Hw).
Qed.

Lemma projectile_stays_near_walls_witness :
  attainable firstShotFired /\
  exists p, projectileRef firstShotFired = Some p /\
            (- (8) <= Projectile.vx p)%Q /\ (Projectile.vx p <= 8)%Q /\
            (- (8) <= Projectile.vy p)%Q /\ (Projectile.vy p <= 8)%Q /\
            (BUBBLE_RADIUS - 8 <= Projectile.x p)%Q /\
            (Projectile.x p <= CANVAS_WIDTH - BUBBLE_RADIUS + 8)%Q.
Proof.
  split; [exact firstShotFired_attainable|].
  eexists. split; [reflexivity|].
  apply (projectile_stays_near_walls firstShotFired _
           firstShotFired_attainable eq_refl).
Defined.

(** ** The ceiling and the rows *)

Lemma getRow_comp (p q : Q) : (p == q)%Q -> getRow p = getRow q.
Proof.
  intros H. unfold getRow. apply Math_round_comp. rewrite H. reflexivity.
Qed.

Lemma Math_round_bounds (q : Q) (lo hi : Z) :
  (inject_Z lo - (1 # 2) <= q)%Q -> (q < inject_Z hi + (1 # 2))%Q ->
  lo <= Math_round q <= hi.
Proof.
  intros Hlo Hhi.
  destruct (proj1 (Math_round_spec q (Math_round q)) eq_refl) as [H1 H2].
  split.
  - destruct (Z.le_gt_cases lo (Math_round q)) as [H | H]; [exact H|].
    exfalso.
    assert (Hn : (inject_Z (Math_round q) + 1 <= inject_Z lo)%Q).
    { change 1%Q with (inject_Z 1). rewrite <- inject_Z_plus.
      rewrite <- Zle_Qle. lia. }
    Lqa.lra.
  - destruct (Z.le_gt_cases (Math_round q) hi) as [H | H]; [exact H|].
    exfalso.
    assert (Hn : (inject_Z hi + 1 <= inject_Z (Math_round q))%Q).
    { change 1%Q with (inject_Z 1). rewrite <- inject_Z_plus.
      rewrite <- Zle_Qle. lia. }
    Lqa.lra.
Qed.

Lemma getRow_between (y : Q) :
  (BUBBLE_RADIUS <= y)%Q -> (y <= CANVAS_HEIGHT + BUBBLE_RADIUS)%Q ->
  0 <= getRow y <= 14.
Proof.
  intros Hlo Hhi. unfold getRow. apply Math_round_bounds.
  - change (inject_Z 0) with 0%Q.
    apply (Qle_trans _ 0); [Lqa.lra|].
    apply Qle_shift_div_l; [reflexivity|]. Lqa.lra.
  - change (inject_Z 14) with 14%Q.
    apply Qlt_shift_div_r; [reflexivity|].
    unfold BUBBLE_RADIUS, ROW_FACTOR, CANVAS_HEIGHT in *. Lqa.lra.
Qed.

Lemma getRow_top (y : Q) :
  (BUBBLE_RADIUS <= y)%Q -> (y < BUBBLE_RADIUS + 8)%Q -> getRow y = 0.
Proof.
  intros Hlo Hhi. unfold getRow. apply Math_round_spec.
  change (inject_Z 0) with 0%Q. split.
  - apply Qle_shift_div_l; [reflexivity|].
    unfold BUBBLE_RADIUS, ROW_FACTOR in *. Lqa.lra.
  - apply Qlt_shift_div_r; [reflexivity|].
    unfold BUBBLE_RADIUS, ROW_FACTOR in *. Lqa.lra.
Qed.

Lemma getCol_between (x : Q) (row : Z) :
  (BUBBLE_RADIUS - 16 <= x)%Q ->
  (x <= CANVAS_WIDTH - BUBBLE_RADIUS + 16)%Q ->
  -1 <= getCol x row <= 7.
Proof.
  intros Hlo Hhi. pose proof Flight.CANVAS_WIDTH_val as HW.
  unfold getCol. apply Math_round_bounds.
  - change (inject_Z (-1)) with (-1)%Q.
    apply Qle_shift_div_l; [reflexivity|].
    unfold BUBBLE_RADIUS in *. destruct (isOffset row); Lqa.lra.
  - change (inject_Z 7) with 7%Q.
    apply Qlt_shift_div_r; [reflexivity|].
    unfold BUBBLE_RADIUS in *. destruct (isOffset row); Lqa.lra.
Qed.

Lemma neighborhood_near (row col : Z) (cell : Z * Z) :
  In cell (neighborhood row col) ->
  row - 1 <= fst cell <= row + 1 /\ col - 1 <= snd cell <= col + 1.
Proof.
  unfold neighborhood. simpl. intros H.
  repeat (destruct H as [<- | H]; [simpl; lia|]). contradiction.
Qed.

Lemma cellOf_newBubbleFor (bubbles : list Bubble.t) (p : Projectile.t)
    (now : Z) :
  cellOf (newBubbleFor bubbles p now)
  = targetCell bubbles (Projectile.x p - Projectile.vx p)%Q
      (Projectile.y p - Projectile.vy p)%Q.
Proof.
  unfold cellOf, newBubbleFor. cbv zeta. cbn [Bubble.x Bubble.y].
  rewrite getRow_getY, getCol_getX. symmetry. apply surjective_pairing.
Qed.

(** The position a projectile had before the frame that stopped it. *)
Lemma previous_height (p : Projectile.t) :
  (Projectile.y (moveProjectile p) - Projectile.vy (moveProjectile p)
   == Projectile.y p)%Q.
Proof.
  destruct (Flight.moveProjectile_fields p) as (_ & Hy & Hvy & _).
  rewrite Hy, Hvy. ring.
Qed.

(** X26: a shot that crosses the ceiling line is stopped by that frame and
    resolved from row 0.  For a projectile that was not above the line
    and rises by at most 8 pixels per frame, as the projectile of every
    state of the game does ([attainable_projectile]), the computed row is
    0, the bubble is put in row 0 when the computed cell is free, and in
    row 0 or 1 otherwise. *)
Theorem ceiling_hit_lands_in_top_row (bubbles : list Bubble.t)
    (p : Projectile.t) (now : Z) :
  (- (8) <= Projectile.vy p)%Q -> (BUBBLE_RADIUS <= Projectile.y p)%Q ->
  (Projectile.y (moveProjectile p) < BUBBLE_RADIUS)%Q ->
  collided bubbles (moveProjectile p) = true /\
  getRow (Projectile.y (moveProjectile p)
          - Projectile.vy (moveProjectile p)) = 0 /\
  (isOccupied bubbles 0
     (getCol (Projectile.x (moveProjectile p)
              - Projectile.vx (moveProjectile p)) 0) = false ->
   Bubble.y (newBubbleFor bubbles (moveProjectile p) now) = getY 0) /\
  0 <= fst (cellOf (newBubbleFor bubbles (moveProjectile p) now)) <= 1.
Proof.
  intros Hvy H20 Hy.
  assert (Hrow : getRow (Projectile.y (moveProjectile p)
                         - Projectile.vy (moveProjectile p)) = 0).
  { rewrite (getRow_comp _ _ (previous_height p)).
    apply getRow_top; [exact H20|].
    destruct (Flight.moveProjectile_fields p) as (_ & Hy' & _).
    rewrite Hy' in Hy. Lqa.lra. }
  split; [|split; [exact Hrow | split]].
  - unfold collided. apply orb_true_iff. left. apply Qltb_lt. exact Hy.
  - intros Hfree. unfold newBubbleFor. cbv zeta. cbn [Bubble.y].
    unfold targetCell. cbv zeta. rewrite Hrow, Hfree. reflexivity.
  - rewrite cellOf_newBubbleFor.
    destruct (targetCell_bounds bubbles
                (Projectile.x (moveProjectile p)
                 - Projectile.vx (moveProjectile p))%Q
                (Projectile.y (moveProjectile p)
                 - Projectile.vy (moveProjectile p))%Q) as [Hin Hpos].
    cbv zeta in Hin, Hpos. rewrite Hrow in Hin, Hpos.
    apply neighborhood_near in Hin. split; [apply Hpos|]; lia.
Qed.

Lemma ceiling_hit_lands_in_top_row_witness :
  (- (8) <= Projectile.vy ceilingShotProjectile)%Q /\
  (BUBBLE_RADIUS <= Projectile.y ceilingShotProjectile)%Q /\
  (Projectile.y (moveProjectile ceilingShotProjectile) < BUBBLE_RADIUS)%Q /\
  collided sampleField (moveProjectile ceilingShotProjectile) = true /\
  getRow (Projectile.y (moveProjectile ceilingShotProjectile)
          - Projectile.vy (moveProjectile ceilingShotProjectile)) = 0 /\
  (isOccupied sampleField 0
     (getCol (Projectile.x (moveProjectile ceilingShotProjectile)
              - Projectile.vx (moveProjectile ceilingShotProjectile)) 0)
   = false ->
   Bubble.y (newBubbleFor sampleField
               (moveProjectile ceilingShotProjectile) 3000) = getY 0) /\
  0 <= fst (cellOf (newBubbleFor sampleField
                      (moveProjectile ceilingShotProjectile) 3000))
    <= 1.
Proof.
  split; [vm_compute; discriminate|]. split; [vm_compute; discriminate|].
  split; [reflexivity|].
  apply (ceiling_hit_lands_in_top_row sampleField ceilingShotProjectile 3000).
  - vm_compute. discriminate.
  - vm_compute. discriminate.
  - reflexivity.
Defined.

Lemma initialSlots_onBoard :
  Forall (fun slot : nat * (Z * Z) => onBoard (snd slot)) initialSlots.
Proof.
  apply Forall_forall. intros slot Hin. apply list_elem_of_In in Hin.
  assert (H : forallb
                (fun slot : nat * (Z * Z) =>
                   (0 <=? fst (snd slot)) && (fst (snd slot) <=? 15)
                   && (-2 <=? snd (snd slot)) && (snd (snd slot) <=? 8))
                initialSlots = true) by reflexivity.
  rewrite forallb_forall in H. specialize (H slot Hin).
  unfold onBoard. rewrite !andb_true_iff, !Z.leb_le in H. lia.
Qed.

(** Where the resolver looks when the projectile of a state of the game
    is stopped: the address computed from the previous position. *)
Lemma stopped_near_board (p : Projectile.t) :
  inFlight p ->
  let p' := moveProjectile p in
  let row := getRow (Projectile.y p' - Projectile.vy p') in
  0 <= row <= 14 /\
  -1 <= getCol (Projectile.x p' - Projectile.vx p') row <= 7.
Proof.
  intros (Hx1 & Hx2 & Hy1 & Hy2 & Hw & Hlo & Hhi). cbv zeta.
  split.
  - rewrite (getRow_comp _ _ (previous_height p)).
    apply getRow_between; assumption.
  - destruct (moveProjectile_vx p Hx1 Hx2) as [Hx1' Hx2'].
    pose proof (moveProjectile_nearWalls p Hx1 Hx2 Hw) as Hw'.
    destruct (nearWalls_bounds _ Hx1' Hx2' Hw') as [Hb1 Hb2].
    apply getCol_between; Lqa.lra.
Qed.

Lemma attainable_near_board (s : State) :
  attainable s -> Forall (fun b => onBoard (cellOf b)) (bubblesRef s).
Proof.
  revert s. apply attainable_inv.
  - intros r _. constructor.
  - intros s e Hs Hb _. destruct e as [random show | c | now].
    + simpl. rewrite initialBubbles_slots. apply Forall_map.
      eapply Forall_impl; [exact initialSlots_onBoard|].
      intros [k [row col]] Hslot. cbn beta.
      unfold cellOf, initialBubble. cbv zeta.
      cbn [Bubble.x Bubble.y fst snd].
      rewrite getRow_getY, getCol_getX. exact Hslot.
    + simpl. unfold handleCanvasClick. destruct (_ || _); exact Hb.
    + simpl. destruct (update_cases s now) as [-> | [H | H]]; [exact Hb| |];
        destruct H as (p & Hg & Hpr & Hc).
      * rewrite (update_collided s now p Hg Hpr Hc). cbv zeta.
        cbn [bubblesRef]. apply settle_Forall; [exact Hb|].
        change (onBoard (cellOf (newBubbleFor (bubblesRef s)
                                   (moveProjectile p) now))).
        rewrite cellOf_newBubbleFor.
        destruct (targetCell_bounds (bubblesRef s)
                    (Projectile.x (moveProjectile p)
                     - Projectile.vx (moveProjectile p))%Q
                    (Projectile.y (moveProjectile p)
                     - Projectile.vy (moveProjectile p))%Q) as [Hin Hpos].
        cbv zeta in Hin, Hpos.
        destruct (stopped_near_board p (attainable_projectile s Hs p Hpr))
          as [Hrow Hcol].
        apply neighborhood_near in Hin. unfold onBoard.
        split; [split; [apply Hpos|]|]; lia.
      * rewrite (update_flying s now p Hg Hpr Hc). exact Hb.
Qed.

(** X27: in every state of the game the grid address of every stored
    bubble is on the board or next to it: its row is one of 0 to 15, its
    column one of -2 to 8; and while the game is being played every row
    is one of 0 to 10. *)
Theorem rows_in_range (s : State) :
  attainable s ->
  Forall (fun b => onBoard (cellOf b) /\
                   (gameState s = playing -> fst (cellOf b) <= 10))
         (bubblesRef s).
Proof.
  intros Hr. pose proof (attainable_near_board s Hr) as Hrows.
  pose proof (attainable_on_grid s Hr) as Hgrid.
  destruct (attainable_danger_line s Hr) as (Hline & _).
  rewrite Forall_forall in Hrows, Hgrid. apply Forall_forall.
  intros b Hb. split; [exact (Hrows b Hb)|]. intros Hplay.
  specialize (Hline Hplay). unfold reachedDangerLine in Hline.
  destruct (Z.le_gt_cases (fst (cellOf b)) 10) as [H | H]; [exact H|].
  exfalso.
  assert (Hy : Qgtb (Bubble.y b) (CANVAS_HEIGHT - 100) = false).
  { destruct (Qgtb (Bubble.y b) (CANVAS_HEIGHT - 100)) eqn:E;
      [|reflexivity].
    rewrite <- Hline. symmetry. apply existsb_exists. exists b.
    split; [apply list_elem_of_In; exact Hb | exact E]. }
  apply Qltb_ge in Hy. destruct (Hgrid b Hb) as [_ Hyb].
  rewrite Hyb in Hy.
  unfold getY, BUBBLE_RADIUS, ROW_FACTOR, CANVAS_HEIGHT in Hy.
  assert (Hn : (inject_Z 11 <= inject_Z (fst (cellOf b)))%Q)
    by (rewrite <- Zle_Qle; lia).
  change (inject_Z 11) with 11%Q in Hn. Lqa.lra.
Qed.

Lemma rows_in_range_witness :
  attainable afterTwoShots /\
  Forall (fun b => onBoard (cellOf b) /\
                   (gameState afterTwoShots = playing ->
                    fst (cellOf b) <= 10))
         (bubblesRef afterTwoShots).
Proof.
  split; [exact afterTwoShots_attainable|].
  apply (rows_in_range afterTwoShots afterTwoShots_attainable).
Defined.
